(** * A mini Mathematica: expression trees, post-order visitor, differentiation

    Shallow embedding of [src/expressions/expressions.py].

    Python objects have an identity, and the visitor's cache is keyed by it, so
    expressions live in a store: a location is an index into a list of
    objects, construction appends to the list, and nothing ever overwrites a
    cell.  Code that can raise runs in a state-and-exception monad over that
    store. *)

From stdpp Require Import base option list gmap strings pretty.
From Stdlib Require Import ZArith Lia.

Open Scope string_scope.
Open Scope list_scope.
Open Scope nat_scope.

(** ** Plain Python values *)

(** A finite binary float, [fm * 2 ^ fe]. *)
Record float := Float { fm : Z; fe : Z }.

(** The builtin values the program is handed: what may be wrapped by a
    [Terminal], passed as the other operand of an arithmetic operator, or
    given as a keyword argument. *)
Inductive pyvalue :=
| VNone
| VBool (b : bool)
| VInt (n : Z)
| VFloat (x : float)
| VComplex (re im : float)
| VStr (s : string).

Inductive pytype := TNoneType | TBool | TInt | TFloat | TComplex | TStr.

Definition type_of (v : pyvalue) : pytype :=
  match v with
  | VNone => TNoneType
  | VBool _ => TBool
  | VInt _ => TInt
  | VFloat _ => TFloat
  | VComplex _ _ => TComplex
  | VStr _ => TStr
  end.

Definition type_name (t : pytype) : string :=
  match t with
  | TNoneType => "NoneType"
  | TBool => "bool"
  | TInt => "int"
  | TFloat => "float"
  | TComplex => "complex"
  | TStr => "str"
  end.

(** [f"{type(value)}"] for a builtin type. *)
Definition type_repr (t : pytype) : string :=
  "<class '" +:+ type_name t +:+ "'>".

Definition pytype_eqb (a b : pytype) : bool :=
  match a, b with
  | TNoneType, TNoneType | TBool, TBool | TInt, TInt
  | TFloat, TFloat | TComplex, TComplex | TStr, TStr => true
  | _, _ => false
  end.

(** The one inheritance edge among these builtin types: [bool] derives
    from [int]. *)
Definition builtin_base (t : pytype) : option pytype :=
  match t with
  | TBool => Some TInt
  | _ => None
  end.

Definition builtin_issubclass (t u : pytype) : bool :=
  pytype_eqb t u ||
  match builtin_base t with
  | Some b => pytype_eqb b u
  | None => false
  end.

(** [numbers.Number] is an abstract base class: [isinstance] succeeds for the
    types registered with the numeric tower ([numbers.py] registers
    [complex], [float] and [int]) and for their subclasses. *)
Definition numbers_registry : list pytype := [TComplex; TFloat; TInt].

Definition isinstance_numbers_Number (v : pyvalue) : bool :=
  existsb (builtin_issubclass (type_of v)) numbers_registry.

Definition isinstance_str (v : pyvalue) : bool :=
  builtin_issubclass (type_of v) TStr.

(** *** Equality of plain values ([==]) *)

Definition float_eqb (x y : float) : bool :=
  let e := Z.min (fe x) (fe y) in
  (fm x * 2 ^ (fe x - e) =? fm y * 2 ^ (fe y - e))%Z.

Definition float_of_Z (n : Z) : float := Float n 0%Z.

(** Numbers compare by value across [bool], [int], [float], [complex]. *)
Definition as_complex (v : pyvalue) : option (float * float) :=
  match v with
  | VBool b => Some (float_of_Z (if b then 1 else 0)%Z, float_of_Z 0%Z)
  | VInt n => Some (float_of_Z n, float_of_Z 0%Z)
  | VFloat x => Some (x, float_of_Z 0%Z)
  | VComplex re im => Some (re, im)
  | VNone | VStr _ => None
  end.

Definition py_eq (a b : pyvalue) : bool :=
  match as_complex a, as_complex b with
  | Some (ar, ai), Some (br, bi) => float_eqb ar br && float_eqb ai bi
  | Some _, None | None, Some _ => false
  | None, None =>
      match a, b with
      | VNone, VNone => true
      | VStr s, VStr t => String.eqb s t
      | _, _ => false
      end
  end.

(** ** Classes *)

(** The classes of the module, and classes derived from them by a class
    statement that (like [Add] ... [Pow] themselves) declares at most the
    class attributes [precedence] and [symbol]. *)
Inductive cls :=
| cExpression | cTerminal | cNumber | cSymbol | cOperator
| cAdd | cSub | cMul | cDiv | cPow
| cDerived (name : string) (base : cls)
           (prec : option Z) (sym : option string).

(** [type(x).__name__] *)
Definition cls_name (c : cls) : string :=
  match c with
  | cExpression => "Expression"
  | cTerminal => "Terminal"
  | cNumber => "Number"
  | cSymbol => "Symbol"
  | cOperator => "Operator"
  | cAdd => "Add"
  | cSub => "Sub"
  | cMul => "Mul"
  | cDiv => "Div"
  | cPow => "Pow"
  | cDerived name _ _ _ => name
  end.

Fixpoint under_Terminal (c : cls) : bool :=
  match c with
  | cTerminal | cNumber | cSymbol => true
  | cDerived _ base _ _ => under_Terminal base
  | _ => false
  end.

Fixpoint under_Operator (c : cls) : bool :=
  match c with
  | cOperator | cAdd | cSub | cMul | cDiv | cPow => true
  | cDerived _ base _ _ => under_Operator base
  | _ => false
  end.

(** Class attribute [precedence], looked up along the bases. *)
Fixpoint cls_precedence (c : cls) : option Z :=
  match c with
  | cOperator => Some 0%Z
  | cAdd | cSub => Some 1%Z
  | cMul | cDiv => Some 2%Z
  | cPow => Some 3%Z
  | cDerived _ base prec _ =>
      match prec with
      | Some p => Some p
      | None => cls_precedence base
      end
  | _ => None
  end.

(** Class attribute [symbol], looked up along the bases. *)
Fixpoint cls_symbol (c : cls) : option string :=
  match c with
  | cOperator => Some ""
  | cAdd => Some "+"
  | cSub => Some "-"
  | cMul => Some "*"
  | cDiv => Some "/"
  | cPow => Some "^"
  | cDerived _ base _ sym =>
      match sym with
      | Some s => Some s
      | None => cls_symbol base
      end
  | _ => None
  end.

(** ** The store *)

Definition loc := nat.

(** An instance: its class, [self.operands], and [self.value] when
    [Terminal.__init__] has set it. *)
Record object := Object {
  ob_class : cls;
  operands : list loc;
  value : option pyvalue
}.

Definition heap := list object.

(** An operand or argument at run time: an [Expression] instance or a plain
    value. *)
Inductive arg :=
| Obj (l : loc)
| Val (v : pyvalue).

(** [isinstance(other, Expression)]: every object of the store is one. *)
Definition isinstance_Expression (a : arg) : bool :=
  match a with
  | Obj _ => true
  | Val _ => false
  end.

(** ** Exceptions and the monad *)

Inductive exn :=
| TypeError (msg : string)
| ValueError (msg : string)
| IndexError (msg : string)
| KeyError (key : loc)
| AttributeError (msg : string)
| NotImplementedError (msg : string).

(** What stops a run of the model without being a Python exception. *)
Inductive fault :=
| OutOfFuel
| DanglingReference (l : loc).

Inductive outcome (A : Type) :=
| Ok (a : A)
| Raise (e : exn)
| Fault (f : fault).
Arguments Ok {A} a.
Arguments Raise {A} e.
Arguments Fault {A} f.

Definition M (A : Type) : Type := heap → outcome A * heap.

Definition ret {A} (a : A) : M A := λ h, (Ok a, h).

Definition bind {A B} (m : M A) (k : A → M B) : M B :=
  λ h, match m h with
       | (Ok a, h') => k a h'
       | (Raise e, h') => (Raise e, h')
       | (Fault f, h') => (Fault f, h')
       end.

Definition raise {A} (e : exn) : M A := λ h, (Raise e, h).

Definition fault_with {A} (f : fault) : M A := λ h, (Fault f, h).

#[export] Instance M_ret : MRet M := @ret.
#[export] Instance M_bind : MBind M := λ A B k m, bind m k.

(** Allocation of a new instance: its location is the next free index. *)
Definition alloc (o : object) : M loc := λ h, (Ok (length h), h ++ [o]).

(** Reading an object through a reference. *)
Definition deref (l : loc) : M object :=
  λ h, match h !! l with
       | Some o => (Ok o, h)
       | None => (Fault (DanglingReference l), h)
       end.

(** Tuple indexing [t[i]]. *)
Definition index {A} (t : list A) (i : nat) : M A :=
  match t !! i with
  | Some a => ret a
  | None => raise (IndexError "tuple index out of range")
  end.

(** ** Construction *)

(** [Expression.__init__(self, *operands)]; also what [Operator] and its
    subclasses inherit. *)
Definition Expression_init (c : cls) (ops : list loc) : M loc :=
  alloc (Object c ops None).

(** [Terminal.__init__(self, value)] *)
Definition Terminal_init (c : cls) (v : pyvalue) : M loc :=
  alloc (Object c [] (Some v)).

(** [Number.__init__(self, value)] *)
Definition Number_init (c : cls) (v : pyvalue) : M loc :=
  if negb (isinstance_numbers_Number v)
  then raise (TypeError ("Expected a number, got a "
                           +:+ type_repr (type_of v) +:+ "."))
  else Terminal_init c v.

(** [Symbol.__init__(self, value)] *)
Definition Symbol_init (c : cls) (v : pyvalue) : M loc :=
  if negb (isinstance_str v)
  then raise (TypeError ("Expected a string, got "
                           +:+ type_repr (type_of v) +:+ "."))
  else Terminal_init c v.

Definition Number (v : pyvalue) : M loc := Number_init cNumber v.
Definition Symbol (v : pyvalue) : M loc := Symbol_init cSymbol v.
Definition Add (l r : loc) : M loc := Expression_init cAdd [l; r].
Definition Sub (l r : loc) : M loc := Expression_init cSub [l; r].
Definition Mul (l r : loc) : M loc := Expression_init cMul [l; r].
Definition Div (l r : loc) : M loc := Expression_init cDiv [l; r].
Definition Pow (l r : loc) : M loc := Expression_init cPow [l; r].

(** ** Arithmetic operators of [Expression] *)

Definition __add__ (self : loc) (other : arg) : M loc :=
  match other with
  | Obj other => Add self other
  | Val v => other ← Number v; Add self other
  end.

Definition __sub__ (self : loc) (other : arg) : M loc :=
  match other with
  | Obj other => Sub self other
  | Val v => other ← Number v; Sub self other
  end.

Definition __mul__ (self : loc) (other : arg) : M loc :=
  match other with
  | Obj other => Mul self other
  | Val v => other ← Number v; Mul self other
  end.

Definition __truediv__ (self : loc) (other : arg) : M loc :=
  match other with
  | Obj other => Div self other
  | Val v => other ← Number v; Div self other
  end.

Definition __pow__ (self : loc) (other : arg) : M loc :=
  match other with
  | Obj other => Pow self other
  | Val v => other ← Number v; Pow self other
  end.

Definition __radd__ (self : loc) (other : pyvalue) : M loc :=
  n ← Number other; Add n self.

Definition __rsub__ (self : loc) (other : pyvalue) : M loc :=
  n ← Number other; Sub n self.

Definition __rmul__ (self : loc) (other : pyvalue) : M loc :=
  n ← Number other; Mul n self.

Definition __rtruediv__ (self : loc) (other : pyvalue) : M loc :=
  n ← Number other; Div n self.

Definition __rpow__ (self : loc) (other : pyvalue) : M loc :=
  n ← Number other; Pow n self.

(** The five binary operations of the language. *)
Inductive binop := OpAdd | OpSub | OpMul | OpTruediv | OpPow.

(** The class each operation builds. *)
Definition binop_cls (op : binop) : cls :=
  match op with
  | OpAdd => cAdd
  | OpSub => cSub
  | OpMul => cMul
  | OpTruediv => cDiv
  | OpPow => cPow
  end.

(** [e OP other] with an [Expression] on the left: Python calls the method
    of the left operand. *)
Definition expr_op (op : binop) (e : loc) (other : arg) : M loc :=
  match op with
  | OpAdd => __add__ e other
  | OpSub => __sub__ e other
  | OpMul => __mul__ e other
  | OpTruediv => __truediv__ e other
  | OpPow => __pow__ e other
  end.

(** [c OP e] with a plain value on the left: the builtin's method returns
    [NotImplemented] for an [Expression], so Python calls the reflected
    method of the right operand. *)
Definition value_op (op : binop) (c : pyvalue) (e : loc) : M loc :=
  match op with
  | OpAdd => __radd__ e c
  | OpSub => __rsub__ e c
  | OpMul => __rmul__ e c
  | OpTruediv => __rtruediv__ e c
  | OpPow => __rpow__ e c
  end.

(** ** The post-order visitor *)

(** Keyword arguments, in call order. *)
Definition kwargs := list (string * arg).

(** [stack.pop()]: the stack is the Python list, its top is the last
    element. *)
Definition pop {A} (stack : list A) : option (list A * A) :=
  match reverse stack with
  | [] => None
  | e :: rest => Some (reverse rest, e)
  end.

(** [visited[o]] *)
Definition getitem {R} (visited : gmap loc R) (o : loc) : M R :=
  match visited !! o with
  | Some r => ret r
  | None => raise (KeyError o)
  end.

(** [(visited[o] for o in e.operands)], consumed by the call. *)
Fixpoint getitems {R} (visited : gmap loc R) (os : list loc) : M (list R) :=
  match os with
  | [] => ret []
  | o :: os => r ← getitem visited o; rs ← getitems visited os; ret (r :: rs)
  end.

(** The [while stack:] loop, one iteration per unit of fuel.  Besides the
    stack and the [visited] dictionary the model keeps [calls], the nodes
    [fn] has been invoked on, oldest first; the program has no such
    variable, it is there to state how often [fn] runs. *)
Fixpoint postvisitor_loop {R} (fuel : nat)
    (fn : loc → list R → kwargs → M R) (kw : kwargs)
    (stack : list loc) (visited : gmap loc R) (calls : list loc)
    : M (gmap loc R * list loc) :=
  match fuel with
  | 0 => fault_with OutOfFuel
  | S fuel =>
      match pop stack with
      | None => ret (visited, calls)
      | Some (stack, e) =>
          obj ← deref e;
          let unvisited_children :=
            filter (λ o, visited !! o = None) (operands obj) in
          match unvisited_children with
          | _ :: _ =>
              postvisitor_loop fuel fn kw
                (stack ++ [e] ++ unvisited_children) visited calls
          | [] =>
              os ← getitems visited (operands obj);
              r ← fn e os kw;
              postvisitor_loop fuel fn kw
                stack (<[e := r]> visited) (calls ++ [e])
          end
      end
  end.

(** [postvisitor(expr, fn, **kwargs)], with the list of calls of [fn]. *)
Definition postvisitor_calls {R} (fuel : nat) (expr : loc)
    (fn : loc → list R → kwargs → M R) (kw : kwargs) : M (R * list loc) :=
  vc ← postvisitor_loop fuel fn kw [expr] ∅ [];
  r ← getitem vc.1 expr;
  ret (r, vc.2).

(** [postvisitor(expr, fn, **kwargs)] *)
Definition postvisitor {R} (fuel : nat) (expr : loc)
    (fn : loc → list R → kwargs → M R) (kw : kwargs) : M R :=
  rc ← postvisitor_calls fuel expr fn kw;
  ret rc.1.

(** ** Differentiation *)

(** [functools.singledispatch] picks the implementation registered for the
    first class of the argument's method resolution order that has one;
    [None] is the fallback registered for [object]. *)
Fixpoint dispatch (c : cls) : option cls :=
  match c with
  | cNumber | cSymbol | cAdd | cSub | cMul | cDiv | cPow => Some c
  | cDerived _ base _ _ => dispatch base
  | cExpression | cTerminal | cOperator => None
  end.

(** [expr.value] *)
Definition getattr_value (expr : loc) : M pyvalue :=
  o ← deref expr;
  match value o with
  | Some v => ret v
  | None => raise (AttributeError ("'" +:+ cls_name (ob_class o)
                                     +:+ "' object has no attribute 'value'"))
  end.

(** [expr.operands[i]] *)
Definition getattr_operand (expr : loc) (i : nat) : M loc :=
  o ← deref expr;
  index (operands o) i.

(** [v in kwargs.values()]: some value of the dictionary equals [v].  An
    [Expression] instance never equals a plain value. *)
Definition in_values (v : pyvalue) (kw : kwargs) : bool :=
  existsb (λ a, match a with
                | Val w => py_eq w v
                | Obj _ => false
                end) kw.*2.

Definition differentiate_default (expr : loc) (o : list loc) (kw : kwargs)
    : M loc :=
  e ← deref expr;
  raise (NotImplementedError
           ("Cannot differentiate a " +:+ cls_name (ob_class e))).

Definition differentiate_Number (expr : loc) (o : list loc) (kw : kwargs)
    : M loc :=
  Number (VInt 0).

Definition differentiate_Symbol (expr : loc) (o : list loc) (kw : kwargs)
    : M loc :=
  v ← getattr_value expr;
  if in_values v kw then Number (VInt 1) else Number (VInt 0).

Definition differentiate_Add (expr : loc) (o : list loc) (kw : kwargs)
    : M loc :=
  o0 ← index o 0;
  o1 ← index o 1;
  __add__ o0 (Obj o1).

Definition differentiate_Sub (expr : loc) (o : list loc) (kw : kwargs)
    : M loc :=
  o0 ← index o 0;
  o1 ← index o 1;
  __sub__ o0 (Obj o1).

Definition differentiate_Mul (expr : loc) (o : list loc) (kw : kwargs)
    : M loc :=
  o0 ← index o 0;
  x1 ← getattr_operand expr 1;
  a ← __mul__ o0 (Obj x1);
  o1 ← index o 1;
  x0 ← getattr_operand expr 0;
  b ← __mul__ o1 (Obj x0);
  __add__ a (Obj b).

Definition differentiate_Div (expr : loc) (o : list loc) (kw : kwargs)
    : M loc :=
  o0 ← index o 0;
  x1 ← getattr_operand expr 1;
  a ← __mul__ o0 (Obj x1);
  o1 ← index o 1;
  x0 ← getattr_operand expr 0;
  b ← __mul__ o1 (Obj x0);
  num ← __sub__ a (Obj b);
  x1 ← getattr_operand expr 1;
  den ← __pow__ x1 (Val (VInt 2));
  __truediv__ num (Obj den).

Definition differentiate_Pow (expr : loc) (o : list loc) (kw : kwargs)
    : M loc :=
  o0 ← index o 0;
  x1 ← getattr_operand expr 1;
  a ← __mul__ o0 (Obj x1);
  x0 ← getattr_operand expr 0;
  x1 ← getattr_operand expr 1;
  e ← __sub__ x1 (Val (VInt 1));
  p ← __pow__ x0 (Obj e);
  __mul__ a (Obj p).

(** [differentiate(expr, *o, **kwargs)] *)
Definition differentiate (expr : loc) (o : list loc) (kw : kwargs) : M loc :=
  e ← deref expr;
  match dispatch (ob_class e) with
  | Some cNumber => differentiate_Number expr o kw
  | Some cSymbol => differentiate_Symbol expr o kw
  | Some cAdd => differentiate_Add expr o kw
  | Some cSub => differentiate_Sub expr o kw
  | Some cMul => differentiate_Mul expr o kw
  | Some cDiv => differentiate_Div expr o kw
  | Some cPow => differentiate_Pow expr o kw
  | _ => differentiate_default expr o kw
  end.

(** ** Display text *)

#[export] Instance outcome_ret : MRet outcome := @Ok.
#[export] Instance outcome_bind : MBind outcome := λ A B k m,
  match m with
  | Ok a => k a
  | Raise e => Raise e
  | Fault f => Fault f
  end.

(** [isinstance(operand, Operator) and operand.precedence < self.precedence];
    the attribute exists whenever the [isinstance] test passes. *)
Definition binds_looser (h : heap) (operand : loc) (self_cls : cls) : bool :=
  match h !! operand with
  | Some o =>
      under_Operator (ob_class o) &&
      match cls_precedence (ob_class o), cls_precedence self_cls with
      | Some p, Some q => (p <? q)%Z
      | _, _ => false
      end
  | None => false
  end.

Definition parens (s : string) : string := "(" +:+ s +:+ ")".

Section Rendering.

(** The text [str] gives for a [float] and for a [complex] is computed by
    the interpreter; the program only passes it on. *)
Variable float_str : float → string.
Variable complex_str : float → float → string.

(** [str(value)] *)
Definition py_str (v : pyvalue) : string :=
  match v with
  | VNone => "None"
  | VBool true => "True"
  | VBool false => "False"
  | VInt n => pretty n
  | VFloat x => float_str x
  | VComplex re im => complex_str re im
  | VStr s => s
  end.

(** [str(self)]: [Terminal.__str__] below [Terminal], [Operator.__str__]
    below [Operator], and otherwise [Expression.__str__], whose result is
    a tuple and which [str] therefore rejects. *)
Fixpoint str (fuel : nat) (h : heap) (self : loc) : outcome string :=
  match fuel with
  | 0 => Fault OutOfFuel
  | S fuel =>
      match h !! self with
      | None => Fault (DanglingReference self)
      | Some o =>
          if under_Terminal (ob_class o) then
            match value o with
            | Some v => Ok (py_str v)
            | None =>
                Raise (AttributeError
                         ("'" +:+ cls_name (ob_class o)
                            +:+ "' object has no attribute 'value'"))
            end
          else if under_Operator (ob_class o) then
            match operands o with
            | [lhs; rhs] =>
                left_str ← str fuel h lhs;
                right_str ← str fuel h rhs;
                let left_str :=
                  if binds_looser h lhs (ob_class o)
                  then parens left_str else left_str in
                let right_str :=
                  if binds_looser h rhs (ob_class o)
                  then parens right_str else right_str in
                Ok (left_str +:+ " "
                      +:+ default "" (cls_symbol (ob_class o))
                      +:+ " " +:+ right_str)
            | [] =>
                Raise (ValueError
                         "not enough values to unpack (expected 2, got 0)")
            | [_] =>
                Raise (ValueError
                         "not enough values to unpack (expected 2, got 1)")
            | _ =>
                Raise (ValueError "too many values to unpack (expected 2)")
            end
          else
            Raise (TypeError "__str__ returned non-string (type tuple)")
      end
  end.

End Rendering.

(** ** Expressions as trees *)

(** The tree a reference stands for: the closed family of variants
    [Number], [Symbol] and the five operators. *)
Inductive tree :=
| Num (v : pyvalue)
| Sym (name : string)
| Op (op : binop) (l r : tree).

(** [denotes h l e]: following operands from location [l] in the store [h]
    unfolds to the tree [e].  Two positions of [e] may be one and the same
    object of [h]. *)
Inductive denotes (h : heap) : loc → tree → Prop :=
| denotes_Number l v :
    h !! l = Some (Object cNumber [] (Some v)) →
    denotes h l (Num v)
| denotes_Symbol l name :
    h !! l = Some (Object cSymbol [] (Some (VStr name))) →
    denotes h l (Sym name)
| denotes_Op l op a b ea eb :
    h !! l = Some (Object (binop_cls op) [a; b] None) →
    denotes h a ea →
    denotes h b eb →
    denotes h l (Op op ea eb).

(** The same unfolding as a function, for running it on a given store. *)
Fixpoint tree_of (fuel : nat) (h : heap) (l : loc) : option tree :=
  match fuel with
  | 0 => None
  | S fuel =>
      match h !! l with
      | Some (Object cNumber [] (Some v)) => Some (Num v)
      | Some (Object cSymbol [] (Some (VStr name))) => Some (Sym name)
      | Some (Object c [a; b] None) =>
          op ← match c with
               | cAdd => Some OpAdd
               | cSub => Some OpSub
               | cMul => Some OpMul
               | cDiv => Some OpTruediv
               | cPow => Some OpPow
               | _ => None
               end;
          ea ← tree_of fuel h a;
          eb ← tree_of fuel h b;
          Some (Op op ea eb)
      | _ => None
      end
  end.

Fixpoint height (e : tree) : nat :=
  match e with
  | Num _ | Sym _ => 0
  | Op _ l r => S (max (height l) (height r))
  end.

(** ** The rendering contract, on trees *)

Definition precedence (op : binop) : Z :=
  match op with
  | OpAdd | OpSub => 1
  | OpMul | OpTruediv => 2
  | OpPow => 3
  end.

Definition symbol (op : binop) : string :=
  match op with
  | OpAdd => "+"
  | OpSub => "-"
  | OpMul => "*"
  | OpTruediv => "/"
  | OpPow => "^"
  end.

Section RenderingContract.

Variable float_str : float → string.
Variable complex_str : float → float → string.

(** An operand is parenthesised if and only if it is an operator of
    strictly lower precedence than its parent. *)
Definition wrap (parent : binop) (operand : tree) (text : string) : string :=
  match operand with
  | Op op _ _ =>
      if (precedence op <? precedence parent)%Z then parens text else text
  | _ => text
  end.

Fixpoint render (e : tree) : string :=
  match e with
  | Num v => py_str float_str complex_str v
  | Sym name => name
  | Op op l r =>
      wrap op l (render l) +:+ " " +:+ symbol op +:+ " "
        +:+ wrap op r (render r)
  end.

End RenderingContract.

(** ** The differentiation rules, on trees *)

Definition zero : tree := Num (VInt 0).
Definition one : tree := Num (VInt 1).
Definition two : tree := Num (VInt 2).

(** The table of rules, applied bottom-up, for the target symbol [x]. *)
Fixpoint derivative (x : string) (e : tree) : tree :=
  match e with
  | Num _ => zero
  | Sym name => if String.eqb name x then one else zero
  | Op OpAdd x0 x1 => Op OpAdd (derivative x x0) (derivative x x1)
  | Op OpSub x0 x1 => Op OpSub (derivative x x0) (derivative x x1)
  | Op OpMul x0 x1 =>
      Op OpAdd (Op OpMul (derivative x x0) x1)
                (Op OpMul (derivative x x1) x0)
  | Op OpTruediv x0 x1 =>
      Op OpTruediv
        (Op OpSub (Op OpMul (derivative x x0) x1)
                   (Op OpMul (derivative x x1) x0))
        (Op OpPow x1 two)
  | Op OpPow x0 x1 =>
      Op OpMul (Op OpMul (derivative x x0) x1)
                (Op OpPow x0 (Op OpSub x1 one))
  end.

(** The context of a call [differentiate(expr, with_respect_to=x)]. *)
Definition with_respect_to (x : string) : kwargs :=
  [("with_respect_to", Val (VStr x))].

(** The target symbol a context names. *)
Definition target (kw : kwargs) : option arg :=
  snd <$> List.find (λ p, String.eqb p.1 "with_respect_to") kw.

(** ** What the contracts speak of *)

(** A value of a numeric type: booleans, integers, floats, complex numbers. *)
Definition numeric (v : pyvalue) : Prop :=
  match v with
  | VBool _ | VInt _ | VFloat _ | VComplex _ _ => True
  | VNone | VStr _ => False
  end.

(** A textual value. *)
Definition textual (v : pyvalue) : Prop :=
  match v with
  | VStr _ => True
  | _ => False
  end.

(** The instance [Number(v)] and the operator instance of [op]. *)
Definition number_object (v : pyvalue) : object := Object cNumber [] (Some v).
Definition symbol_object (name : string) : object :=
  Object cSymbol [] (Some (VStr name)).
Definition operator_object (op : binop) (l r : loc) : object :=
  Object (binop_cls op) [l; r] None.

(** ** Example programs *)

(** [z = y * y] with [y = Symbol("x") + Symbol("x")]: the one instance [y]
    is both operands of [z]. *)
Definition shared_example : M loc :=
  x1 ← Symbol (VStr "x");
  x2 ← Symbol (VStr "x");
  y ← __add__ x1 (Obj x2);
  __mul__ y (Obj y).

(** [Symbol("x") + Symbol("x")] *)
Definition sum_example : M loc :=
  x1 ← Symbol (VStr "x");
  x2 ← Symbol (VStr "x");
  __add__ x1 (Obj x2).

(** [Symbol("x") * Symbol("x")] *)
Definition product_example : M loc :=
  x1 ← Symbol (VStr "x");
  x2 ← Symbol (VStr "x");
  __mul__ x1 (Obj x2).

(** [(Symbol("x") + Symbol("y")) * Symbol("z")] *)
Definition sum_times_example : M loc :=
  x ← Symbol (VStr "x");
  y ← Symbol (VStr "y");
  z ← Symbol (VStr "z");
  s ← __add__ x (Obj y);
  __mul__ s (Obj z).

(** [Symbol("x") * Symbol("y") + Symbol("z")] *)
Definition product_plus_example : M loc :=
  x ← Symbol (VStr "x");
  y ← Symbol (VStr "y");
  z ← Symbol (VStr "z");
  p ← __mul__ x (Obj y);
  __add__ p (Obj z).

(** A combining function without effects. *)
Definition pure_fn {R} (f : loc → list R → R) : loc → list R → kwargs → M R :=
  λ e os _, ret (f e os).

(** ** Predicates of the proofs *)

(** The loop invariant of the visitor, for a notion [Good e r h] of "in the
    store [h], [r] is a right result for node [e]": the store has only grown
    since the call began with [h0], and the dictionary holds right results. *)
Definition Inv {R} (h0 : heap) (Good : loc → R → heap → Prop)
    (visited : gmap loc R) (h : heap) : Prop :=
  h0 `prefix_of` h ∧ ∀ o r, visited !! o = Some r → Good o r h.

(** [finishes fn kw h0 Good cs]: with the nodes [cs] on top of the stack,
    the loop gets to the point where they are all popped for good and all
    visited, whatever lies below them. *)
Definition finishes {R} (fn : loc → list R → kwargs → M R) (kw : kwargs)
    (h0 : heap) (Good : loc → R → heap → Prop) (cs : list loc) : Prop :=
  ∀ stack visited calls h,
    Inv h0 Good visited h →
    ∃ n visited' calls' h',
      Inv h0 Good visited' h' ∧
      (∀ o, is_Some (visited !! o) → is_Some (visited' !! o)) ∧
      Forall (λ c, is_Some (visited' !! c)) cs ∧
      ∀ k, postvisitor_loop (n + k) fn kw (stack ++ cs) visited calls h
           = postvisitor_loop k fn kw stack visited' calls' h'.

(** [r] is, in [h], the derivative with respect to [x] of what [e] stands
    for in [h0]. *)
Definition is_derivative (h0 : heap) (x : string) (e r : loc) (h : heap)
    : Prop :=
  ∃ t, denotes h0 e t ∧ denotes h r (derivative x t).

(** [combines f h l r]: [r] is what the function [f] gives at node [l] when
    it is applied bottom-up, each node to the results of its operands. *)
Inductive combines {R} (f : loc → list R → R) (h : heap) : loc → R → Prop :=
| combines_leaf l obj :
    h !! l = Some obj →
    operands obj = [] →
    combines f h l (f l [])
| combines_node l obj a b ra rb :
    h !! l = Some obj →
    operands obj = [a; b] →
    combines f h a ra →
    combines f h b rb →
    combines f h l (f l [ra; rb]).

(** A computation only allocates: the store it leaves extends the store it
    found, on every outcome. *)
Definition grows {A} (m : M A) : Prop :=
  ∀ h out h', m h = (out, h') → h `prefix_of` h'.

(** A computation that returns a reference returns a new one. *)
Definition allocates (m : M loc) : Prop :=
  ∀ h r h', m h = (Ok r, h') → length h ≤ r < length h'.

(** ** Predicates of the visitor's order *)

(** In the sequence [calls], every node comes after the operands it has in
    the store [h]. *)
Definition operands_first (h : heap) (calls : list loc) : Prop :=
  ∀ i e obj o,
    calls !! i = Some e → h !! e = Some obj → o ∈ operands obj →
    o ∈ take i calls.

(** What the loop keeps between iterations, whatever [fn] does: the keys of
    the dictionary are the nodes [fn] was called on, and the root is at the
    bottom of the stack until it is the last node [fn] was called on. *)
Definition loop_ok {R} (root : loc) (stack : list loc)
    (visited : gmap loc R) (calls : list loc) : Prop :=
  (∀ o, is_Some (visited !! o) ↔ o ∈ calls) ∧
  (head stack = Some root ∨ (stack = [] ∧ last calls = Some root)).

(** The nodes reached from [root] by following operands in the store [h]. *)
Inductive reachable (h : heap) (root : loc) : loc → Prop :=
| reachable_root : reachable h root root
| reachable_operand e obj o :
    reachable h root e →
    h !! e = Some obj →
    o ∈ operands obj →
    reachable h root o.

(** [visits h l order]: the nodes below [l] in the store [h], in the order
    right operand, left operand, node. *)
Inductive visits (h : heap) : loc → list loc → Prop :=
| visits_leaf l obj :
    h !! l = Some obj →
    operands obj = [] →
    visits h l [l]
| visits_node l obj a b la lb :
    h !! l = Some obj →
    operands obj = [a; b] →
    visits h a la →
    visits h b lb →
    visits h l (lb ++ la ++ [l]).

(** ** The rules as one table *)

(** The tree a rule builds for an operator node, from the trees [eo0], [eo1]
    of the operand results and the trees [ex0], [ex1] of the operands. *)
Definition rule_tree (op : binop) (eo0 eo1 ex0 ex1 : tree) : tree :=
  match op with
  | OpAdd => Op OpAdd eo0 eo1
  | OpSub => Op OpSub eo0 eo1
  | OpMul => Op OpAdd (Op OpMul eo0 ex1) (Op OpMul eo1 ex0)
  | OpTruediv =>
      Op OpTruediv (Op OpSub (Op OpMul eo0 ex1) (Op OpMul eo1 ex0))
                   (Op OpPow ex1 two)
  | OpPow => Op OpMul (Op OpMul eo0 ex1) (Op OpPow ex0 (Op OpSub ex1 one))
  end.

(** How many operand results the rule of an operator reads. *)
Definition results_read (op : binop) : nat :=
  match op with
  | OpPow => 1
  | _ => 2
  end.

(** ** Client programs *)

(** Builds a tree with the constructors and the operators of the module, as
    [Number(v)], [Symbol(name)] and [l OP r] in client code. *)
Fixpoint build (t : tree) : M loc :=
  match t with
  | Num v => Number v
  | Sym name => Symbol (VStr name)
  | Op op l r => a ← build l; b ← build r; expr_op op a (Obj b)
  end.

(** Every number of the tree is a numeric value. *)
Fixpoint numeric_leaves (t : tree) : Prop :=
  match t with
  | Num v => numeric v
  | Sym _ => True
  | Op _ l r => numeric_leaves l ∧ numeric_leaves r
  end.

(** The number of nodes of a tree. *)
Fixpoint node_count (t : tree) : nat :=
  match t with
  | Num _ | Sym _ => 1
  | Op _ l r => S (node_count l + node_count r)
  end.

(** Differentiates [n] times in a row, each time through the visitor. *)
Fixpoint differentiate_times (fuel n : nat) (root : loc) (kw : kwargs)
    : M loc :=
  match n with
  | 0 => ret root
  | S n =>
      r ← postvisitor fuel root differentiate kw;
      differentiate_times fuel n r kw
  end.

(** The objects a rule allocates, in order; the last one is the result. *)
Definition rule_cells (op : binop) (n : nat) (x0 x1 o0 o1 : loc)
    : list object :=
  match op with
  | OpAdd => [operator_object OpAdd o0 o1]
  | OpSub => [operator_object OpSub o0 o1]
  | OpMul =>
      [operator_object OpMul o0 x1; operator_object OpMul o1 x0;
       operator_object OpAdd n (1 + n)]
  | OpTruediv =>
      [operator_object OpMul o0 x1; operator_object OpMul o1 x0;
       operator_object OpSub n (1 + n); number_object (VInt 2);
       operator_object OpPow x1 (3 + n);
       operator_object OpTruediv (2 + n) (4 + n)]
  | OpPow =>
      [operator_object OpMul o0 x1; number_object (VInt 1);
       operator_object OpSub x1 (1 + n); operator_object OpPow x0 (2 + n);
       operator_object OpMul n (3 + n)]
  end.

(** The table of rules applied bottom-up, for an arbitrary context: a
    symbol counts as the variable when its name is the value of some entry. *)
Fixpoint derivative_in (kw : kwargs) (t : tree) : tree :=
  match t with
  | Num _ => zero
  | Sym name => if in_values (VStr name) kw then one else zero
  | Op op a b => rule_tree op (derivative_in kw a) (derivative_in kw b) a b
  end.

(** [r] is, in [h], the derivative in the context [kw] of what [e] stands
    for in [h0]. *)
Definition is_derivative_in (h0 : heap) (kw : kwargs) (e r : loc) (h : heap)
    : Prop :=
  ∃ t, denotes h0 e t ∧ denotes h r (derivative_in kw t).

(** ** Debug text *)

(** Applies [f] to the items from left to right; the first failure is the
    outcome. *)
Fixpoint outcome_map {A B} (f : A → outcome B) (l : list A)
    : outcome (list B) :=
  match l with
  | [] => Ok []
  | a :: l => b ← f a; bs ← outcome_map f l; Ok (b :: bs)
  end.

(** [repr] of a tuple, from the [repr] of its items: a tuple of one item
    has a trailing comma. *)
Definition tuple_repr (items : list string) : string :=
  match items with
  | [] => "()"
  | [x] => "(" +:+ x +:+ ",)"
  | _ => "(" +:+ String.concat ", " items +:+ ")"
  end.

Section Repr.

(** [repr] of a [float] and of a [complex] is their [str]; [repr] of a
    [str], with its quotes and escapes, is the interpreter's. *)
Variable float_str : float → string.
Variable complex_str : float → float → string.
Variable str_repr : string → string.

(** [repr(value)] *)
Definition py_repr (v : pyvalue) : string :=
  match v with
  | VStr s => str_repr s
  | _ => py_str float_str complex_str v
  end.

(** [repr(self)]: [Terminal.__repr__] below [Terminal], and
    [Expression.__repr__] everywhere else. *)
Fixpoint repr (fuel : nat) (h : heap) (self : loc) : outcome string :=
  match fuel with
  | 0 => Fault OutOfFuel
  | S fuel =>
      match h !! self with
      | None => Fault (DanglingReference self)
      | Some o =>
          if under_Terminal (ob_class o) then
            match value o with
            | Some v => Ok (py_repr v)
            | None =>
                Raise (AttributeError
                         ("'" +:+ cls_name (ob_class o)
                            +:+ "' object has no attribute 'value'"))
            end
          else
            items ← outcome_map (repr fuel h) (operands o);
            Ok (cls_name (ob_class o) +:+ tuple_repr items)
      end
  end.

(** The debug text of a tree. *)
Fixpoint show (t : tree) : string :=
  match t with
  | Num v => py_repr v
  | Sym name => str_repr name
  | Op op l r =>
      cls_name (binop_cls op) +:+ "(" +:+ show l +:+ ", " +:+ show r +:+ ")"
  end.

End Repr.

(** * Basic facts *)

Lemma length_snoc {A} (l : list A) (x : A) : length (l ++ [x]) = S (length l).
Proof. rewrite length_app; simpl; lia. Qed.

Lemma snoc_snoc {A} (l : list A) (x y : A) : (l ++ [x]) ++ [y] = l ++ [x; y].
Proof. by rewrite <- app_assoc. Qed.

Lemma numeric_isinstance v : numeric v ↔ isinstance_numbers_Number v = true.
Proof. destruct v; simpl; split; intros H; try done; try discriminate. Qed.

Lemma textual_isinstance v : textual v ↔ isinstance_str v = true.
Proof. destruct v; simpl; split; intros H; try done; try discriminate. Qed.

Lemma Number_numeric v h :
  numeric v → Number v h = (Ok (length h), h ++ [number_object v]).
Proof.
  intros Hv. apply numeric_isinstance in Hv.
  unfold Number, Number_init. by rewrite Hv.
Qed.

Lemma Number_not_numeric v h :
  ¬ numeric v →
  Number v h = (Raise (TypeError ("Expected a number, got a "
                                    +:+ type_repr (type_of v) +:+ ".")), h).
Proof.
  intros Hv. unfold Number, Number_init.
  destruct (isinstance_numbers_Number v) eqn:E; [|done].
  by apply numeric_isinstance in E.
Qed.

Lemma Symbol_textual v h :
  textual v → Symbol v h = (Ok (length h), h ++ [Object cSymbol [] (Some v)]).
Proof.
  intros Hv. apply textual_isinstance in Hv.
  unfold Symbol, Symbol_init. by rewrite Hv.
Qed.

Lemma Symbol_not_textual v h :
  ¬ textual v →
  Symbol v h = (Raise (TypeError ("Expected a string, got "
                                    +:+ type_repr (type_of v) +:+ ".")), h).
Proof.
  intros Hv. unfold Symbol, Symbol_init.
  destruct (isinstance_str v) eqn:E; [|done].
  by apply textual_isinstance in E.
Qed.

Lemma bind_Ok {A B} (m : M A) (k : A → M B) h a h' :
  m h = (Ok a, h') → (m ≫= k) h = k a h'.
Proof. intros E. unfold mbind, M_bind, bind. by rewrite E. Qed.

Lemma bind_Raise {A B} (m : M A) (k : A → M B) h e h' :
  m h = (Raise e, h') → (m ≫= k) h = (Raise e, h').
Proof. intros E. unfold mbind, M_bind, bind. by rewrite E. Qed.

Lemma bind_Fault {A B} (m : M A) (k : A → M B) h f h' :
  m h = (Fault f, h') → (m ≫= k) h = (Fault f, h').
Proof. intros E. unfold mbind, M_bind, bind. by rewrite E. Qed.

Lemma deref_Some l o h : h !! l = Some o → deref l h = (Ok o, h).
Proof. intros E. unfold deref. by rewrite E. Qed.

Lemma expr_op_Obj op e o h :
  expr_op op e (Obj o) h
  = (Ok (length h), h ++ [operator_object op e o]).
Proof. by destruct op. Qed.

Lemma expr_op_Val op e c h :
  numeric c →
  expr_op op e (Val c) h
  = (Ok (S (length h)),
     h ++ [number_object c; operator_object op e (length h)]).
Proof.
  intros Hc.
  destruct op; simpl;
    unfold __add__, __sub__, __mul__, __truediv__, __pow__;
    rewrite (bind_Ok _ _ _ _ _ (Number_numeric c h Hc));
    unfold Add, Sub, Mul, Div, Pow, Expression_init, alloc;
    by rewrite length_snoc, snoc_snoc.
Qed.

Lemma value_op_numeric op c e h :
  numeric c →
  value_op op c e h
  = (Ok (S (length h)),
     h ++ [number_object c; operator_object op (length h) e]).
Proof.
  intros Hc.
  destruct op; simpl;
    unfold __radd__, __rsub__, __rmul__, __rtruediv__, __rpow__;
    rewrite (bind_Ok _ _ _ _ _ (Number_numeric c h Hc));
    unfold Add, Sub, Mul, Div, Pow, Expression_init, alloc;
    by rewrite length_snoc, snoc_snoc.
Qed.

(** * Trees in the store *)

Lemma denotes_lt h l e : denotes h l e → l < length h.
Proof. destruct 1; by eapply lookup_lt_Some. Qed.

(** Allocation does not change what an existing reference stands for. *)
Lemma denotes_app h ext l e : denotes h l e → denotes (h ++ ext) l e.
Proof.
  induction 1.
  - apply denotes_Number. by apply lookup_app_l_Some.
  - apply denotes_Symbol. by apply lookup_app_l_Some.
  - eapply denotes_Op; eauto. by apply lookup_app_l_Some.
Qed.

Lemma binop_cls_inj op op' : binop_cls op = binop_cls op' → op = op'.
Proof. by destruct op, op'. Qed.

Lemma denotes_functional h l e1 e2 : denotes h l e1 → denotes h l e2 → e1 = e2.
Proof.
  intros H1. revert e2.
  induction H1 as [l v E|l name E|l op a b ea eb E Ha IHa Hb IHb];
    intros e2 H2; inversion H2 as [? ? E2|? ? E2|? op' ? ? ? ? E2 Ha2 Hb2];
    subst; rewrite E in E2; try (by destruct op); try (by destruct op');
    try by (inversion E2; subst).
  inversion E2 as [[Hop Ha' Hb']]. apply binop_cls_inj in Hop. subst.
  f_equal; eauto.
Qed.

Lemma lookup_snoc_length {A} (l : list A) (x : A) (ext : list A) :
  (l ++ x :: ext) !! length l = Some x.
Proof. by rewrite list_lookup_middle. Qed.

(** The executable unfolding finds only trees the reference stands for. *)
Lemma tree_of_denotes fuel h l t : tree_of fuel h l = Some t → denotes h l t.
Proof.
  revert l t. induction fuel as [|fuel IH]; intros l t; simpl; [done|].
  destruct (h !! l) as [[c ops v]|] eqn:E; [|done].
  destruct ops as [|a [|b [|? ?]]];
    destruct c; try done; destruct v as [v|]; try done;
    try (intros [= <-]; by apply denotes_Number);
    try (destruct v; try done; intros [= <-]; by apply denotes_Symbol).
  all: simpl;
    destruct (tree_of fuel h a) as [ea|] eqn:Ea; try done;
    destruct (tree_of fuel h b) as [eb|] eqn:Eb; try done;
    simpl; intros [= <-];
    (eapply (denotes_Op _ _ OpAdd) || eapply (denotes_Op _ _ OpSub)
     || eapply (denotes_Op _ _ OpMul) || eapply (denotes_Op _ _ OpTruediv)
     || eapply (denotes_Op _ _ OpPow)); eauto.
Qed.


(** * The rules, one node at a time *)

Lemma lookup_new {A} (h ext : list A) (i : nat) :
  (h ++ ext) !! (i + length h) = ext !! i.
Proof.
  rewrite lookup_app_r by lia. f_equal. lia.
Qed.

Lemma length_app_cons {A} (l ext : list A) (x : A) :
  length (l ++ x :: ext) = S (length (l ++ ext)).
Proof. rewrite !length_app. simpl. lia. Qed.

(** Evaluates a rule on a store that holds [expr]. *)
Ltac run_rule E :=
  unfold differentiate, differentiate_default, differentiate_Number,
    differentiate_Symbol, differentiate_Add, differentiate_Sub,
    differentiate_Mul, differentiate_Div, differentiate_Pow,
    getattr_value, getattr_operand,
    __add__, __sub__, __mul__, __truediv__, __pow__,
    Add, Sub, Mul, Div, Pow, Number, Number_init, Terminal_init,
    Expression_init, alloc, deref, index, raise,
    mbind, M_bind, bind, ret;
  simpl;
  repeat (progress (rewrite ?E, ?(lookup_app_l_Some _ _ _ _ E),
                      <- ?app_assoc); simpl);
  rewrite ?length_app_cons, ?app_nil_r.

(** Finds the tree of a reference in an extended store: an old reference
    keeps its tree, a new one is read off the extension. *)
Ltac new_cell :=
  first [ exact (lookup_new _ _ 0) | exact (lookup_new _ _ 1)
        | exact (lookup_new _ _ 2) | exact (lookup_new _ _ 3)
        | exact (lookup_new _ _ 4) | exact (lookup_new _ _ 5) ].

Ltac build_tree :=
  repeat first
    [ apply denotes_app; eassumption
    | apply denotes_Number; new_cell
    | eapply (denotes_Op _ _ OpAdd); [new_cell | |]
    | eapply (denotes_Op _ _ OpSub); [new_cell | |]
    | eapply (denotes_Op _ _ OpMul); [new_cell | |]
    | eapply (denotes_Op _ _ OpTruediv); [new_cell | |]
    | eapply (denotes_Op _ _ OpPow); [new_cell | |] ].

Section Rules.

Variables (h : heap) (expr x0 x1 o0 o1 : loc) (kw : kwargs).

Lemma differentiate_Add_run :
  h !! expr = Some (operator_object OpAdd x0 x1) →
  differentiate expr [o0; o1] kw h
  = (Ok (length h), h ++ [operator_object OpAdd o0 o1]).
Proof. intros E. by run_rule E. Qed.

Lemma differentiate_Sub_run :
  h !! expr = Some (operator_object OpSub x0 x1) →
  differentiate expr [o0; o1] kw h
  = (Ok (length h), h ++ [operator_object OpSub o0 o1]).
Proof. intros E. by run_rule E. Qed.

Lemma differentiate_Mul_run :
  h !! expr = Some (operator_object OpMul x0 x1) →
  differentiate expr [o0; o1] kw h
  = (Ok (2 + length h),
     h ++ [operator_object OpMul o0 x1;
           operator_object OpMul o1 x0;
           operator_object OpAdd (length h) (1 + length h)]).
Proof. intros E. by run_rule E. Qed.

Lemma differentiate_Div_run :
  h !! expr = Some (operator_object OpTruediv x0 x1) →
  differentiate expr [o0; o1] kw h
  = (Ok (5 + length h),
     h ++ [operator_object OpMul o0 x1;
           operator_object OpMul o1 x0;
           operator_object OpSub (length h) (1 + length h);
           number_object (VInt 2);
           operator_object OpPow x1 (3 + length h);
           operator_object OpTruediv (2 + length h) (4 + length h)]).
Proof. intros E. by run_rule E. Qed.

Lemma differentiate_Pow_run :
  h !! expr = Some (operator_object OpPow x0 x1) →
  differentiate expr [o0; o1] kw h
  = (Ok (4 + length h),
     h ++ [operator_object OpMul o0 x1;
           number_object (VInt 1);
           operator_object OpSub x1 (1 + length h);
           operator_object OpPow x0 (2 + length h);
           operator_object OpMul (length h) (3 + length h)]).
Proof. intros E. by run_rule E. Qed.

Variables (ex0 ex1 eo0 eo1 : tree).
Hypothesis Hx0 : denotes h x0 ex0.
Hypothesis Hx1 : denotes h x1 ex1.
Hypothesis Ho0 : denotes h o0 eo0.
Hypothesis Ho1 : denotes h o1 eo1.

Lemma rule_Add :
  h !! expr = Some (operator_object OpAdd x0 x1) →
  ∃ r ext,
    differentiate expr [o0; o1] kw h = (Ok r, h ++ ext) ∧
    length h ≤ r ∧
    denotes (h ++ ext) r (Op OpAdd eo0 eo1).
Proof using Hx0 Hx1 Ho0 Ho1.
  intros E. eexists _, _. split; [by apply differentiate_Add_run|].
  split; [lia|]. build_tree.
Qed.

Lemma rule_Sub :
  h !! expr = Some (operator_object OpSub x0 x1) →
  ∃ r ext,
    differentiate expr [o0; o1] kw h = (Ok r, h ++ ext) ∧
    length h ≤ r ∧
    denotes (h ++ ext) r (Op OpSub eo0 eo1).
Proof using Hx0 Hx1 Ho0 Ho1.
  intros E. eexists _, _. split; [by apply differentiate_Sub_run|].
  split; [lia|]. build_tree.
Qed.

Lemma rule_Mul :
  h !! expr = Some (operator_object OpMul x0 x1) →
  ∃ r ext,
    differentiate expr [o0; o1] kw h = (Ok r, h ++ ext) ∧
    length h ≤ r ∧
    denotes (h ++ ext) r
      (Op OpAdd (Op OpMul eo0 ex1) (Op OpMul eo1 ex0)).
Proof using Hx0 Hx1 Ho0 Ho1.
  intros E. eexists _, _. split; [by apply differentiate_Mul_run|].
  split; [lia|]. build_tree.
Qed.

Lemma rule_Div :
  h !! expr = Some (operator_object OpTruediv x0 x1) →
  ∃ r ext,
    differentiate expr [o0; o1] kw h = (Ok r, h ++ ext) ∧
    length h ≤ r ∧
    denotes (h ++ ext) r
      (Op OpTruediv
         (Op OpSub (Op OpMul eo0 ex1) (Op OpMul eo1 ex0))
         (Op OpPow ex1 two)).
Proof using Hx0 Hx1 Ho0 Ho1.
  intros E. eexists _, _. split; [by apply differentiate_Div_run|].
  split; [lia|]. build_tree.
Qed.

Lemma rule_Pow :
  h !! expr = Some (operator_object OpPow x0 x1) →
  ∃ r ext,
    differentiate expr [o0; o1] kw h = (Ok r, h ++ ext) ∧
    length h ≤ r ∧
    denotes (h ++ ext) r
      (Op OpMul (Op OpMul eo0 ex1)
                 (Op OpPow ex0 (Op OpSub ex1 one))).
Proof using Hx0 Hx1 Ho0 Ho1.
  intros E. eexists _, _. split; [by apply differentiate_Pow_run|].
  split; [lia|]. build_tree.
Qed.

End Rules.

Lemma differentiate_Number_run h expr v o kw :
  h !! expr = Some (number_object v) →
  differentiate expr o kw h
  = (Ok (length h), h ++ [number_object (VInt 0)]).
Proof. intros E. by run_rule E. Qed.

Lemma differentiate_Symbol_run h expr name o kw :
  h !! expr = Some (symbol_object name) →
  differentiate expr o kw h
  = (Ok (length h),
     h ++ [number_object (VInt (if in_values (VStr name) kw then 1 else 0))]).
Proof. intros E. run_rule E. by destruct (in_values (VStr name) kw). Qed.

Lemma differentiate_unregistered h expr obj o kw :
  h !! expr = Some obj →
  dispatch (ob_class obj) = None →
  differentiate expr o kw h
  = (Raise (NotImplementedError
              ("Cannot differentiate a " +:+ cls_name (ob_class obj))), h).
Proof.
  intros E D. unfold differentiate.
  rewrite (bind_Ok _ _ _ _ _ (deref_Some _ _ _ E)), D.
  unfold differentiate_default.
  by rewrite (bind_Ok _ _ _ _ _ (deref_Some _ _ _ E)).
Qed.

(** A string equals a keyword value exactly when that value is the same
    string. *)
Lemma in_values_str name kw :
  in_values (VStr name) kw = true ↔ Val (VStr name) ∈ kw.*2.
Proof.
  unfold in_values. rewrite existsb_exists. split.
  - intros [a [Ha E]]. apply list_elem_of_In in Ha.
    destruct a as [|w]; [done|]. destruct w; try done.
    simpl in E. apply String.eqb_eq in E. by subst.
  - intros Ha. exists (Val (VStr name)). split.
    + by apply list_elem_of_In.
    + simpl. apply String.eqb_refl.
Qed.

Lemma in_values_with_respect_to name x :
  in_values (VStr name) (with_respect_to x) = String.eqb name x.
Proof. unfold in_values; simpl. rewrite orb_false_r. apply String.eqb_sym. Qed.

(** * The visitor's loop *)

Lemma pop_snoc {A} (stack : list A) (e : A) :
  pop (stack ++ [e]) = Some (stack, e).
Proof. unfold pop. by rewrite reverse_snoc, reverse_involutive. Qed.

Lemma getitems_Some {R} (visited : gmap loc R) (os : list loc) (h : heap) :
  Forall (λ o, is_Some (visited !! o)) os →
  ∃ rs, getitems visited os h = (Ok rs, h) ∧
        Forall2 (λ o r, visited !! o = Some r) os rs.
Proof.
  induction 1 as [|o os [r Hr] _ [rs [E F]]].
  - by exists [].
  - exists (r :: rs). split; [|by constructor].
    simpl. unfold getitem. rewrite Hr.
    unfold mbind, M_bind, bind, ret. by rewrite E.
Qed.

Lemma filter_unvisited_nil {R} (visited : gmap loc R) (os : list loc) :
  filter (λ o, visited !! o = None) os = [] ↔
  Forall (λ o, is_Some (visited !! o)) os.
Proof.
  split.
  - intros E. apply Forall_forall. intros o Ho.
    apply not_eq_None_Some. intros Hn.
    by apply (filter_nil_not_elem_of _ _ _ E Hn).
  - induction 1 as [|o os Ho _ IH]; [done|].
    rewrite filter_cons_False; [done|]. by apply not_eq_None_Some.
Qed.

Section Traversal.

Context {R : Type}.
Variables (fn : loc → list R → kwargs → M R) (kw : kwargs) (h0 : heap).

(** [Good e r h]: in the store [h], [r] is a right result for node [e]. *)
Variable Good : loc → R → heap → Prop.

Hypothesis Good_app : ∀ e r h ext, Good e r h → Good e r (h ++ ext).

Hypothesis fn_Good : ∀ e t obj rs h,
  denotes h0 e t →
  h0 !! e = Some obj →
  h0 `prefix_of` h →
  Forall2 (λ o r, Good o r h) (operands obj) rs →
  ∃ r ext, fn e rs kw h = (Ok r, h ++ ext) ∧ Good e r (h ++ ext).

Local Abbreviation Inv := (Inv h0 Good).
Local Abbreviation finishes := (finishes fn kw h0 Good).

Lemma finishes_nil : finishes [].
Proof.
  intros stack visited calls h HI. exists 0, visited, calls, h.
  repeat split; try apply HI; auto. intros k. by rewrite app_nil_r.
Qed.

Lemma finishes_snoc cs c : finishes cs → finishes [c] → finishes (cs ++ [c]).
Proof.
  intros Hcs Hc stack visited calls h HI.
  destruct (Hc (stack ++ cs) visited calls h HI)
    as (n1 & v1 & c1 & h1 & HI1 & K1 & F1 & E1).
  destruct (Hcs stack v1 c1 h1 HI1)
    as (n2 & v2 & c2 & h2 & HI2 & K2 & F2 & E2).
  exists (n1 + n2), v2, c2, h2.
  split; [done|]. split; [by auto|]. split.
  - apply Forall_app. split; [done|].
    apply Forall_singleton, K2. by apply Forall_inv in F1.
  - intros k. rewrite app_assoc, <- Nat.add_assoc, E1. apply E2.
Qed.

Lemma finishes_Forall cs : Forall (λ c, finishes [c]) cs → finishes cs.
Proof.
  induction cs as [|c cs IH] using rev_ind; intros F.
  - apply finishes_nil.
  - apply Forall_app in F as [Fcs Fc].
    apply finishes_snoc; [by apply IH | by apply Forall_inv in Fc].
Qed.

(** One iteration on a node whose operands are all visited: [fn] is
    called and the node is popped for good. *)
Lemma visit_step e t obj stack visited calls h :
  denotes h0 e t →
  h0 !! e = Some obj →
  Inv visited h →
  Forall (λ o, is_Some (visited !! o)) (operands obj) →
  ∃ r ext,
    Inv (<[e := r]> visited) (h ++ ext) ∧
    ∀ k, postvisitor_loop (S k) fn kw (stack ++ [e]) visited calls h
         = postvisitor_loop k fn kw stack (<[e := r]> visited)
             (calls ++ [e]) (h ++ ext).
Proof.
  intros He Eo [Hp HG] Hv.
  destruct (getitems_Some visited (operands obj) h Hv) as (rs & Ers & F).
  assert (Forall2 (λ o r, Good o r h) (operands obj) rs) as FG.
  { eapply Forall2_impl; [exact F|]. intros o r Hr. by apply HG. }
  destruct (fn_Good e t obj rs h He Eo Hp FG) as (r & ext & Er & Gr).
  exists r, ext. split.
  - split; [by apply prefix_app_r|].
    intros o r'. rewrite lookup_insert. case_decide.
    + intros [= <-]. by subst.
    + intros Hr. by apply Good_app, HG.
  - intros k. simpl. rewrite pop_snoc.
    rewrite (bind_Ok _ _ _ _ _
               (deref_Some _ _ _ (prefix_lookup_Some _ _ _ _ Eo Hp))).
    assert (filter (λ o, visited !! o = None) (operands obj) = []) as ->
      by by apply filter_unvisited_nil.
    rewrite (bind_Ok _ _ _ _ _ Ers), (bind_Ok _ _ _ _ _ Er). done.
Qed.

(** A node is finished once its operands can be. *)
Lemma finishes_node e t obj :
  denotes h0 e t →
  h0 !! e = Some obj →
  Forall (λ c, finishes [c]) (operands obj) →
  finishes [e].
Proof.
  intros He Eo Fo stack visited calls h HI.
  destruct (filter (λ o, visited !! o = None) (operands obj))
    as [|c cs] eqn:Eu.
  - apply filter_unvisited_nil in Eu.
    destruct (visit_step e t obj stack visited calls h He Eo HI Eu)
      as (r & ext & HI' & E).
    exists 1, (<[e := r]> visited), (calls ++ [e]), (h ++ ext).
    split; [done|]. split; [|split].
    + intros o [r' Hr']. rewrite lookup_insert. case_decide; eauto.
    + apply Forall_singleton. rewrite lookup_insert_eq. eauto.
    + exact E.
  - assert (finishes (c :: cs)) as Hu.
    { apply finishes_Forall. rewrite <- Eu.
      apply Forall_forall. intros o Ho.
      apply list_elem_of_filter in Ho as [_ Ho].
      by eapply Forall_forall in Fo. }
    destruct (Hu (stack ++ [e]) visited calls h HI)
      as (n1 & v1 & c1 & h1 & HI1 & K1 & F1 & E1).
    assert (Forall (λ o, is_Some (v1 !! o)) (operands obj)) as Hall.
    { apply Forall_forall. intros o Ho.
      destruct (visited !! o) as [r|] eqn:Er; [by apply K1; eauto|].
      eapply Forall_forall in F1; [exact F1|].
      rewrite <- Eu. by apply list_elem_of_filter. }
    destruct (visit_step e t obj stack v1 c1 h1 He Eo HI1 Hall)
      as (r & ext & HI' & E).
    exists (S (n1 + 1)), (<[e := r]> v1), (c1 ++ [e]), (h1 ++ ext).
    split; [done|]. split; [|split].
    + intros o Ho. apply K1 in Ho as [r' Hr'].
      rewrite lookup_insert. case_decide; eauto.
    + apply Forall_singleton. rewrite lookup_insert_eq. eauto.
    + intros k. simpl. rewrite pop_snoc.
      destruct HI as [Hp _].
      rewrite (bind_Ok _ _ _ _ _
                 (deref_Some _ _ _ (prefix_lookup_Some _ _ _ _ Eo Hp))).
      rewrite Eu. rewrite <- Nat.add_assoc.
      change (stack ++ e :: c :: cs) with (stack ++ [e] ++ c :: cs).
      rewrite app_assoc, E1. apply E.
Qed.

(** Every node that stands for a tree is finished. *)
Lemma finishes_denotes e t : denotes h0 e t → finishes [e].
Proof.
  induction 1 as [l v E|l name E|l op a b ea eb E Ha IHa Hb IHb].
  - eapply finishes_node; [by apply denotes_Number|exact E|constructor].
  - eapply finishes_node; [by apply denotes_Symbol|exact E|constructor].
  - eapply finishes_node; [by eapply denotes_Op|exact E|].
    simpl. by repeat constructor.
Qed.

(** With enough fuel the visitor returns a right result for the root. *)
Lemma postvisitor_calls_Good root t :
  denotes h0 root t →
  ∃ n r calls h',
    h0 `prefix_of` h' ∧ Good root r h' ∧
    ∀ fuel, n ≤ fuel →
      postvisitor_calls fuel root fn kw h0 = (Ok (r, calls), h').
Proof.
  intros Hr.
  assert (Inv ∅ h0) as HI by (split; [done|by intros ? ? ?]).
  destruct (finishes_denotes root t Hr [] ∅ [] h0 HI)
    as (n & v & c & h' & [Hp HG] & _ & Fr & E).
  apply Forall_inv in Fr as [r Er].
  exists (S n), r, c, h'. split; [done|]. split; [by apply HG|].
  intros fuel Hf. replace fuel with (n + S (fuel - S n)) by lia.
  unfold postvisitor_calls. simpl app in E.
  unfold mbind, M_bind, bind. rewrite E. simpl.
  unfold getitem. by rewrite Er.
Qed.

End Traversal.

(** * The visitor with a function without effects *)

(** With enough fuel the visitor returns the bottom-up combination of the
    tree, shared operands or not. *)
Lemma postvisitor_calls_pure_fn {R} (f : loc → list R → R) kw h root t :
  denotes h root t →
  ∃ n r calls h',
    combines f h root r ∧
    ∀ fuel, n ≤ fuel →
      postvisitor_calls fuel root (pure_fn f) kw h = (Ok (r, calls), h').
Proof.
  intros Hr.
  destruct (postvisitor_calls_Good (pure_fn f) kw h
              (λ e r _, combines f h e r)) with (root := root) (t := t)
    as (n & r & calls & h' & _ & Hc & E); [done| |done|by eauto 8].
  intros e t' obj rs g He Eo _ F.
  exists (f e rs), []. rewrite app_nil_r. split; [done|].
  inversion He as [? v E|? name E|? op a b ea eb E Ha Hb]; subst;
    rewrite E in Eo; injection Eo as <-; simpl in F.
  - apply Forall2_nil_inv_l in F as ->. by eapply combines_leaf.
  - apply Forall2_nil_inv_l in F as ->. by eapply combines_leaf.
  - apply Forall2_cons_inv_l in F as (ra & rs' & Ga & F & ->).
    apply Forall2_cons_inv_l in F as (rb & rs'' & Gb & F & ->).
    apply Forall2_nil_inv_l in F as ->.
    by eapply combines_node.
Qed.

(** * Differentiation through the visitor *)

Section DifferentiateTraversal.

Variables (h0 : heap) (x : string).

Local Abbreviation is_derivative := (is_derivative h0 x).

Lemma is_derivative_app e r h ext :
  is_derivative e r h → is_derivative e r (h ++ ext).
Proof. intros (t & He & Hr). exists t. split; [done|by apply denotes_app]. Qed.

Lemma denotes_prefix h l t :
  h0 `prefix_of` h → denotes h0 l t → denotes h l t.
Proof. intros [ext ->]. apply denotes_app. Qed.

Lemma differentiate_is_derivative e t obj rs h :
  denotes h0 e t →
  h0 !! e = Some obj →
  h0 `prefix_of` h →
  Forall2 (λ o r, is_derivative o r h) (operands obj) rs →
  ∃ r ext,
    differentiate e rs (with_respect_to x) h = (Ok r, h ++ ext) ∧
    is_derivative e r (h ++ ext).
Proof.
  intros He Eo Hp F. pose proof (prefix_lookup_Some _ _ _ _ Eo Hp) as Eh.
  inversion He as [? v E|? name E|? op a b ea eb E Ha Hb]; subst;
    rewrite E in Eo; injection Eo as <-.
  - eexists _, _. split; [by eapply differentiate_Number_run|].
    exists (Num v). split; [done|].
    apply denotes_Number. apply lookup_snoc_length.
  - eexists _, _. split; [by eapply differentiate_Symbol_run|].
    exists (Sym name). split; [done|].
    rewrite in_values_with_respect_to. simpl.
    destruct (String.eqb name x); apply denotes_Number, lookup_snoc_length.
  - simpl in F.
    apply Forall2_cons_inv_l in F as (ra & rs' & Ga & F & ->).
    apply Forall2_cons_inv_l in F as (rb & rs'' & Gb & F & ->).
    apply Forall2_nil_inv_l in F as ->.
    destruct Ga as (ta & Hta & Hra), Gb as (tb & Htb & Hrb).
    rewrite (denotes_functional _ _ _ _ Hta Ha) in Hra.
    rewrite (denotes_functional _ _ _ _ Htb Hb) in Hrb.
    pose proof (denotes_prefix _ _ _ Hp Ha) as Ha'.
    pose proof (denotes_prefix _ _ _ Hp Hb) as Hb'.
    destruct op.
    + destruct (rule_Add h e a b ra rb (with_respect_to x) _ _ _ _
                  Ha' Hb' Hra Hrb Eh)
        as (r & ext & Er & _ & Hr).
      exists r, ext. split; [done|]. by exists (Op OpAdd ea eb).
    + destruct (rule_Sub h e a b ra rb (with_respect_to x) _ _ _ _
                  Ha' Hb' Hra Hrb Eh)
        as (r & ext & Er & _ & Hr).
      exists r, ext. split; [done|]. by exists (Op OpSub ea eb).
    + destruct (rule_Mul h e a b ra rb (with_respect_to x) _ _ _ _
                  Ha' Hb' Hra Hrb Eh) as (r & ext & Er & _ & Hr).
      exists r, ext. split; [done|]. by exists (Op OpMul ea eb).
    + destruct (rule_Div h e a b ra rb (with_respect_to x) _ _ _ _
                  Ha' Hb' Hra Hrb Eh) as (r & ext & Er & _ & Hr).
      exists r, ext. split; [done|]. by exists (Op OpTruediv ea eb).
    + destruct (rule_Pow h e a b ra rb (with_respect_to x) _ _ _ _
                  Ha' Hb' Hra Hrb Eh) as (r & ext & Er & _ & Hr).
      exists r, ext. split; [done|]. by exists (Op OpPow ea eb).
Qed.

(** With enough fuel, the visitor driven by [differentiate] returns a
    reference to the derivative of the root. *)
Lemma postvisitor_derivative root t :
  denotes h0 root t →
  ∃ n r h',
    h0 `prefix_of` h' ∧
    denotes h' r (derivative x t) ∧
    ∀ fuel, n ≤ fuel →
      postvisitor fuel root differentiate (with_respect_to x) h0
      = (Ok r, h').
Proof.
  intros Hr.
  destruct (postvisitor_calls_Good differentiate (with_respect_to x) h0
              is_derivative is_derivative_app differentiate_is_derivative
              root t Hr)
    as (n & r & calls & h' & Hp & (t' & Ht' & Hd) & E).
  rewrite (denotes_functional _ _ _ _ Ht' Hr) in Hd.
  exists n, r, h'. split; [done|]. split; [done|].
  intros fuel Hf. unfold postvisitor.
  by rewrite (bind_Ok _ _ _ _ _ (E fuel Hf)).
Qed.

End DifferentiateTraversal.


(** * Rendering *)

Lemma binop_cls_not_Terminal op : under_Terminal (binop_cls op) = false.
Proof. by destruct op. Qed.

Lemma binop_cls_Operator op : under_Operator (binop_cls op) = true.
Proof. by destruct op. Qed.

Lemma binop_cls_precedence op : cls_precedence (binop_cls op) = Some (precedence op).
Proof. by destruct op. Qed.

Lemma binop_cls_symbol op : cls_symbol (binop_cls op) = Some (symbol op).
Proof. by destruct op. Qed.

(** The attribute lookups of [Operator.__str__] cannot fail: a class below
    [Operator] has a precedence and a symbol. *)
Lemma under_Operator_attributes c :
  under_Operator c = true →
  is_Some (cls_precedence c) ∧ is_Some (cls_symbol c).
Proof.
  induction c as [| | | | | | | | | |name base IH prec sym]; simpl;
    try discriminate; try (split; eauto; fail).
  intros Hb. destruct (IH Hb). split; [by destruct prec|by destruct sym].
Qed.

Section RenderingFacts.

Variable float_str : float → string.
Variable complex_str : float → float → string.

Local Abbreviation str := (str float_str complex_str).
Local Abbreviation render := (render float_str complex_str).

Lemma binds_looser_denotes h a t op :
  denotes h a t →
  ∀ text, (if binds_looser h a (binop_cls op) then parens text else text)
          = wrap op t text.
Proof.
  intros Ha text. unfold binds_looser.
  destruct Ha as [l v E|l name E|l op' a b ea eb E _ _]; rewrite E; simpl;
    try done.
  by rewrite binop_cls_Operator, !binop_cls_precedence.
Qed.

(** The text computed for a reference is the rendering of its tree. *)
Lemma str_denotes h l t :
  denotes h l t →
  ∀ fuel, height t < fuel → str fuel h l = Ok (render t).
Proof.
  induction 1 as [l v E|l name E|l op a b ea eb E Ha IHa Hb IHb];
    intros [|fuel] Hf; try lia; simpl; rewrite E; simpl; try done.
  rewrite binop_cls_not_Terminal, binop_cls_Operator.
  simpl in Hf. rewrite IHa, IHb by lia. simpl.
  rewrite (binds_looser_denotes _ _ _ op Ha).
  rewrite (binds_looser_denotes _ _ _ op Hb).
  by rewrite binop_cls_symbol.
Qed.

(** Allocation does not change the text of an existing expression. *)
Lemma str_app h ext fuel l s :
  str fuel h l = Ok s → str fuel (h ++ ext) l = Ok s.
Proof.
  revert l s. induction fuel as [|fuel IH]; intros l s; simpl; [done|].
  destruct (h !! l) as [o|] eqn:E; [|done].
  rewrite (lookup_app_l_Some _ _ _ _ E).
  destruct (under_Terminal (ob_class o)); [done|].
  destruct (under_Operator (ob_class o)); [|done].
  destruct (operands o) as [|a [|b [|? ?]]]; try done.
  destruct (str fuel h a) as [sa| |] eqn:Ea; try done.
  destruct (str fuel h b) as [sb| |] eqn:Eb; try done.
  rewrite (IH _ _ Ea), (IH _ _ Eb). simpl.
  assert (∀ c o', str fuel h c = Ok o' →
            binds_looser (h ++ ext) c (ob_class o)
            = binds_looser h c (ob_class o)) as Hb.
  { intros c o' Ec. unfold binds_looser.
    destruct fuel; [done|]. simpl in Ec.
    destruct (h !! c) as [oc|] eqn:Eoc; [|done].
    by rewrite (lookup_app_l_Some _ _ _ _ Eoc). }
  by rewrite (Hb _ _ Ea), (Hb _ _ Eb).
Qed.

End RenderingFacts.

(** * Frame: the store only grows *)

Lemma grows_ret {A} (a : A) : grows (ret a).
Proof. intros h out h' [= <- <-]. done. Qed.

Lemma grows_raise {A} e : grows (@raise A e).
Proof. intros h out h' [= <- <-]. done. Qed.

Lemma grows_fault {A} f : grows (@fault_with A f).
Proof. intros h out h' [= <- <-]. done. Qed.

Lemma grows_alloc o : grows (alloc o).
Proof. intros h out h' [= <- <-]. by apply prefix_app_r. Qed.

Lemma grows_deref l : grows (deref l).
Proof. intros h out h'. unfold deref. by destruct (h !! l); intros [= <- <-]. Qed.

Lemma grows_bind {A B} (m : M A) (k : A → M B) :
  grows m → (∀ a, grows (k a)) → grows (m ≫= k).
Proof.
  intros Hm Hk h out h'. unfold mbind, M_bind, bind.
  destruct (m h) as [[a|e|f] h1] eqn:E; pose proof (Hm _ _ _ E).
  - intros Ek. etrans; [done|]. by eapply Hk.
  - by intros [= <- <-].
  - by intros [= <- <-].
Qed.

Lemma grows_index {A} (t : list A) i : grows (index t i).
Proof.
  unfold index. destruct (t !! i); [apply grows_ret|apply grows_raise].
Qed.

Lemma grows_getitem {R} (visited : gmap loc R) o : grows (getitem visited o).
Proof.
  unfold getitem. destruct (visited !! o); [apply grows_ret|apply grows_raise].
Qed.

Create HintDb grows.
#[export] Hint Resolve grows_ret grows_raise grows_fault grows_alloc
  grows_deref grows_index grows_getitem : grows.

Ltac grows_steps :=
  repeat first
    [ progress auto with grows
    | apply grows_bind; [|intros ?]
    | match goal with
      | |- grows (match ?x with _ => _ end) => destruct x
      | |- grows (if ?x then _ else _) => destruct x
      end ].

Lemma grows_getitems {R} (visited : gmap loc R) os :
  grows (getitems visited os).
Proof. induction os; simpl; grows_steps. Qed.

Lemma grows_Number v : grows (Number v).
Proof. unfold Number, Number_init, Terminal_init. grows_steps. Qed.

Lemma grows_expr_op op e other : grows (expr_op op e other).
Proof.
  pose proof grows_Number.
  destruct op; simpl;
    unfold __add__, __sub__, __mul__, __truediv__, __pow__,
      Add, Sub, Mul, Div, Pow, Expression_init;
    grows_steps.
Qed.

Lemma grows_differentiate e o kw : grows (differentiate e o kw).
Proof.
  pose proof grows_Number.
  pose proof (grows_expr_op OpAdd). pose proof (grows_expr_op OpSub).
  pose proof (grows_expr_op OpMul). pose proof (grows_expr_op OpTruediv).
  pose proof (grows_expr_op OpPow). simpl in *.
  unfold differentiate, differentiate_default, differentiate_Number,
    differentiate_Symbol, differentiate_Add, differentiate_Sub,
    differentiate_Mul, differentiate_Div, differentiate_Pow,
    getattr_value, getattr_operand.
  grows_steps.
Qed.

Lemma allocates_alloc o : allocates (alloc o).
Proof. intros h r h' [= <- <-]. rewrite length_snoc. lia. Qed.

Lemma allocates_raise e : allocates (raise e).
Proof. by intros h r h'. Qed.

Lemma allocates_bind {A} (m : M A) (k : A → M loc) :
  grows m → (∀ a, allocates (k a)) → allocates (m ≫= k).
Proof.
  intros Hm Hk h r h'. unfold mbind, M_bind, bind.
  destruct (m h) as [[a|e|f] h1] eqn:E; try done.
  intros Ek. apply Hm, prefix_length in E. apply Hk in Ek. lia.
Qed.

Ltac allocates_steps :=
  repeat first
    [ apply allocates_alloc
    | apply allocates_raise
    | apply allocates_bind; [solve [grows_steps]|intros ?]
    | match goal with
      | |- allocates (match ?x with _ => _ end) => destruct x
      | |- allocates (if ?x then _ else _) => destruct x
      end ].

Lemma allocates_Number v : allocates (Number v).
Proof. unfold Number, Number_init, Terminal_init. allocates_steps. Qed.

Lemma allocates_expr_op op e other : allocates (expr_op op e other).
Proof.
  pose proof grows_Number.
  destruct op; simpl;
    unfold __add__, __sub__, __mul__, __truediv__, __pow__,
      Add, Sub, Mul, Div, Pow, Expression_init;
    allocates_steps.
Qed.

Lemma allocates_differentiate e o kw : allocates (differentiate e o kw).
Proof.
  pose proof grows_Number. pose proof allocates_Number.
  pose proof (grows_expr_op OpAdd). pose proof (grows_expr_op OpSub).
  pose proof (grows_expr_op OpMul). pose proof (grows_expr_op OpTruediv).
  pose proof (grows_expr_op OpPow).
  pose proof (allocates_expr_op OpAdd). pose proof (allocates_expr_op OpSub).
  pose proof (allocates_expr_op OpMul).
  pose proof (allocates_expr_op OpTruediv).
  pose proof (allocates_expr_op OpPow). simpl in *.
  unfold differentiate, differentiate_default, differentiate_Number,
    differentiate_Symbol, differentiate_Add, differentiate_Sub,
    differentiate_Mul, differentiate_Div, differentiate_Pow,
    getattr_value, getattr_operand.
  allocates_steps; auto.
Qed.

Lemma grows_postvisitor_loop {R} fuel (fn : loc → list R → kwargs → M R) kw :
  (∀ e os, grows (fn e os kw)) →
  ∀ stack visited calls,
    grows (postvisitor_loop fuel fn kw stack visited calls).
Proof.
  intros Hfn. pose proof (@grows_getitems R).
  induction fuel as [|fuel IH]; intros stack visited calls; simpl;
    grows_steps.
Qed.

Lemma grows_postvisitor {R} fuel root (fn : loc → list R → kwargs → M R) kw :
  (∀ e os, grows (fn e os kw)) → grows (postvisitor fuel root fn kw).
Proof.
  intros Hfn. pose proof (grows_postvisitor_loop fuel fn kw Hfn).
  unfold postvisitor, postvisitor_calls. grows_steps.
Qed.

(** Every result the dictionary holds was allocated after the call began. *)
Lemma postvisitor_loop_fresh base fuel (fn : loc → list loc → kwargs → M loc) kw :
  (∀ e os, grows (fn e os kw)) →
  (∀ e os, allocates (fn e os kw)) →
  ∀ stack visited calls h vis c h',
    base ≤ length h →
    (∀ o r, visited !! o = Some r → base ≤ r < length h) →
    postvisitor_loop fuel fn kw stack visited calls h = (Ok (vis, c), h') →
    ∀ o r, vis !! o = Some r → base ≤ r < length h'.
Proof.
  intros Hg Ha. induction fuel as [|fuel IH];
    intros stack visited calls h vis c h' Hb Hv; simpl; [done|].
  destruct (pop stack) as [[stack' e]|]; [|by intros [= <- <- <-]].
  unfold mbind, M_bind, bind.
  destruct (deref e h) as [[obj| |] h1] eqn:Ed; try done.
  pose proof (prefix_length _ _ (grows_deref _ _ _ _ Ed)) as L1.
  destruct (filter _ (operands obj)) as [|u us].
  - destruct (getitems visited (operands obj) h1) as [[rs| |] h2] eqn:Eg;
      try done.
    pose proof (prefix_length _ _ (grows_getitems _ _ _ _ _ Eg)) as L2.
    destruct (fn e rs kw h2) as [[r| |] h3] eqn:Ef; try done.
    pose proof (Ha _ _ _ _ _ Ef) as L3.
    apply IH; [lia|]. intros o r'. rewrite lookup_insert. case_decide.
    + intros [= <-]. lia.
    + intros Hr. apply Hv in Hr. lia.
  - apply IH; [lia|]. intros o r Hr. apply Hv in Hr. lia.
Qed.

Lemma postvisitor_fresh fuel root (fn : loc → list loc → kwargs → M loc) kw :
  (∀ e os, grows (fn e os kw)) →
  (∀ e os, allocates (fn e os kw)) →
  allocates (postvisitor fuel root fn kw).
Proof.
  intros Hg Ha h r h'. unfold postvisitor, postvisitor_calls.
  unfold mbind, M_bind, bind.
  destruct (postvisitor_loop fuel fn kw [root] ∅ [] h)
    as [[[vis c]| |] h1] eqn:El; try done.
  simpl. unfold getitem. destruct (vis !! root) as [r'|] eqn:Er; [|done].
  intros [= <- <-].
  eapply (postvisitor_loop_fresh (length h)); eauto.
  by intros o r'' Hr.
Qed.

(** * Construction *)

(** C5: [Number(value)] fails with a [TypeError] exactly when [value] is not
    numeric and [Symbol(name)] exactly when [name] is not textual; a failed
    construction leaves the store as it was (no instance is produced), and
    the exception passes through whatever the caller does next.
    [Number("abc")] and [Symbol(5)] fail this way. *)
Theorem construction_type_mismatch (v : pyvalue) (h : heap) :
  ((∃ msg, Number v h = (Raise (TypeError msg), h)) ↔ ¬ numeric v) ∧
  ((∃ msg, Symbol v h = (Raise (TypeError msg), h)) ↔ ¬ textual v) ∧
  (∀ out h', Number v h = (out, h') →
     (∃ l, out = Ok l) ∨ (h' = h ∧ ∃ msg, out = Raise (TypeError msg))) ∧
  (∀ out h', Symbol v h = (out, h') →
     (∃ l, out = Ok l) ∨ (h' = h ∧ ∃ msg, out = Raise (TypeError msg))) ∧
  (∀ (k : loc → M loc) e h',
     Number v h = (Raise e, h') → (Number v ≫= k) h = (Raise e, h')) ∧
  (∀ (k : loc → M loc) e h',
     Symbol v h = (Raise e, h') → (Symbol v ≫= k) h = (Raise e, h')) ∧
  Number (VStr "abc") h
    = (Raise (TypeError "Expected a number, got a <class 'str'>."), h) ∧
  Symbol (VInt 5) h
    = (Raise (TypeError "Expected a string, got <class 'int'>."), h).
Proof.
  repeat split.
  - intros [msg E] Hv. by rewrite (Number_numeric v h Hv) in E.
  - intros Hv. eexists. by apply Number_not_numeric.
  - intros [msg E] Hv. by rewrite (Symbol_textual v h Hv) in E.
  - intros Hv. eexists. by apply Symbol_not_textual.
  - intros out h' E. destruct (isinstance_numbers_Number v) eqn:Hv.
    + apply numeric_isinstance in Hv. rewrite (Number_numeric v h Hv) in E.
      left. inversion E. eauto.
    + rewrite Number_not_numeric in E.
      * right. inversion E. eauto.
      * intros Hn. apply numeric_isinstance in Hn. congruence.
  - intros out h' E. destruct (isinstance_str v) eqn:Hv.
    + apply textual_isinstance in Hv. rewrite (Symbol_textual v h Hv) in E.
      left. inversion E. eauto.
    + rewrite Symbol_not_textual in E.
      * right. inversion E. eauto.
      * intros Hn. apply textual_isinstance in Hn. congruence.
  - intros k e h' E. by apply bind_Raise.
  - intros k e h' E. by apply bind_Raise.
Qed.

(** C10: the check of [Number] accepts every value whose type is registered
    with the numeric tower or derives from a registered type; [Number(True)]
    and [Number(2+3j)] are constructed, and a value that is rejected is not
    numeric: it is a string or [None]. *)
Theorem Number_accepts_numeric_tower (v : pyvalue) (h : heap) :
  (∀ t, t ∈ numbers_registry → builtin_issubclass (type_of v) t = true →
        Number v h = (Ok (length h), h ++ [number_object v])) ∧
  Number (VBool true) h = (Ok (length h), h ++ [number_object (VBool true)]) ∧
  Number (VComplex (Float 2 0) (Float 3 0)) h
    = (Ok (length h),
       h ++ [number_object (VComplex (Float 2 0) (Float 3 0))]) ∧
  (∀ s, ∃ msg, Number (VStr s) h = (Raise (TypeError msg), h)) ∧
  (∀ e h', Number v h = (Raise e, h') →
           type_of v = TStr ∨ type_of v = TNoneType).
Proof.
  repeat split.
  - intros t Ht Hsub. apply Number_numeric, numeric_isinstance.
    unfold isinstance_numbers_Number. apply existsb_exists.
    exists t. split; [apply list_elem_of_In; exact Ht | exact Hsub].
  - intros s. eexists. apply Number_not_numeric. simpl. tauto.
  - intros e h' E. destruct v; simpl; auto;
      rewrite Number_numeric in E by exact I; discriminate.
Qed.

(** * Arithmetic operators *)

(** C6: for an expression [e] and a numeric literal [c], each of the five
    operations builds [Number(c)] and then the operator node of that
    operation, with operands [(e, Number(c))] for [e OP c] and
    [(Number(c), e)] for [c OP e]: the literal is wrapped on either side and
    the order of the operands is that of the source text, so that [5 - e] is
    [Sub(Number(5), e)]. *)
Theorem literal_operand_wrapped_in_order
    (op : binop) (e : loc) (c : pyvalue) (h : heap) :
  numeric c →
  expr_op op e (Val c) h
  = (Ok (S (length h)),
     h ++ [number_object c; operator_object op e (length h)]) ∧
  value_op op c e h
  = (Ok (S (length h)),
     h ++ [number_object c; operator_object op (length h) e]) ∧
  (∀ ee, denotes h e ee →
     denotes (h ++ [number_object c; operator_object op e (length h)])
       (S (length h)) (Op op ee (Num c)) ∧
     denotes (h ++ [number_object c; operator_object op (length h) e])
       (S (length h)) (Op op (Num c) ee)).
Proof.
  intros Hc.
  split; [by apply expr_op_Val|]. split; [by apply value_op_numeric|].
  intros ee He. split.
  - eapply denotes_Op.
    + exact (lookup_new h _ 1).
    + by apply denotes_app.
    + apply denotes_Number. apply lookup_snoc_length.
  - eapply denotes_Op.
    + exact (lookup_new h _ 1).
    + apply denotes_Number. apply lookup_snoc_length.
    + by apply denotes_app.
Qed.

Lemma literal_operand_wrapped_in_order_witness :
  let h := [symbol_object "x"] in
  numeric (VInt 5) ∧
  value_op OpSub (VInt 5) 0 h
  = (Ok 2, h ++ [number_object (VInt 5); operator_object OpSub 1 0]) ∧
  tree_of 3 (h ++ [number_object (VInt 5); operator_object OpSub 1 0]) 2
  = Some (Op OpSub (Num (VInt 5)) (Sym "x")).
Proof.
  intros h. split; [exact I|]. split; [|reflexivity].
  exact (proj1 (proj2 (literal_operand_wrapped_in_order
                         OpSub 0 (VInt 5) h I))).
Defined.

(** * The visitor on a shared operand *)

(** C1 (fails on the code): on [z = y * y], built with one instance [y], the
    visitor pushes [y] once per operand position before it has visited it, and
    calls the combining function on [y] at each of the two pops.  The
    returned value is the bottom-up combination; the number of calls on [y]
    is two, not one. *)
Theorem shared_operand_combined_twice
    {R} (f : loc → list R → R) (kw : kwargs) (k : nat) :
  ∃ h y z calls r,
    shared_example [] = (Ok z, h) ∧
    h !! z = Some (operator_object OpMul y y) ∧
    postvisitor_calls (8 + k) z (pure_fn f) kw h = (Ok (r, calls), h) ∧
    r = f z [f y [f 0 []; f 1 []]; f y [f 0 []; f 1 []]] ∧
    calls = [1; 0; y; y; z] ∧
    length (filter (λ e, e = y) calls) = 2.
Proof.
  exists [symbol_object "x"; symbol_object "x";
          operator_object OpAdd 0 1; operator_object OpMul 2 2], 2, 3.
  eexists _, _. split; [reflexivity|]. split; [reflexivity|].
  split; [vm_compute; reflexivity|]. split; [reflexivity|].
  split; reflexivity.
Qed.

(** * The entry point of differentiation *)

(** C2 as stated fails: called on a tree with only the keyword argument,
    [differentiate] applies the rule of the root to an empty tuple of operand
    results; on a sum it raises [IndexError]. *)
Lemma differentiate_alone_counterexample :
  ¬ (∀ (h : heap) (root : loc) (t : tree) (x : string),
       denotes h root t →
       ∃ r h',
         differentiate root [] (with_respect_to x) h = (Ok r, h') ∧
         denotes h' r (derivative x t)).
Proof.
  intros H.
  destruct (H [symbol_object "x"; symbol_object "x"; operator_object OpAdd 0 1]
              2 (Op OpAdd (Sym "x") (Sym "x")) "x")
    as (r & h' & E & _).
  - eapply denotes_Op; [reflexivity| |]; by apply denotes_Symbol.
  - vm_compute in E. discriminate.
Qed.

(** C2 (amended): it is [postvisitor(expr, differentiate,
    with_respect_to=x)] that returns the derivative of the whole tree: with
    enough fuel the call returns a reference whose tree is the table of rules
    applied bottom-up, and whose text is the rendering of that tree; for
    [Symbol("x") + Symbol("x")] and ["x"] the text is ["1 + 1"]. *)
Theorem postvisitor_differentiate_derivative
    (h : heap) (root : loc) (t : tree) (x : string) :
  denotes h root t →
  (∃ n r h',
     denotes h' r (derivative x t) ∧
     (∀ fuel, n ≤ fuel →
        postvisitor fuel root differentiate (with_respect_to x) h
        = (Ok r, h')) ∧
     (∀ fs cs fuel, height (derivative x t) < fuel →
        str fs cs fuel h' r = Ok (render fs cs (derivative x t)))) ∧
  (∀ fs cs, ∃ e h1 r h2,
     sum_example [] = (Ok e, h1) ∧
     postvisitor 5 e differentiate (with_respect_to "x") h1 = (Ok r, h2) ∧
     str fs cs 2 h2 r = Ok "1 + 1").
Proof.
  intros Hr. split.
  - destruct (postvisitor_derivative h x root t Hr)
      as (n & r & h' & _ & Hd & E).
    exists n, r, h'. split; [done|]. split; [done|].
    intros fs cs fuel Hf. by apply str_denotes.
  - intros fs cs. eexists _, _, _, _.
    split; [reflexivity|]. split; [vm_compute; reflexivity|]. reflexivity.
Qed.

Lemma postvisitor_differentiate_derivative_witness :
  let h := [symbol_object "x"; symbol_object "y"; operator_object OpMul 0 1] in
  denotes h 2 (Op OpMul (Sym "x") (Sym "y")) ∧
  ∃ n r h',
    denotes h' r
      (Op OpAdd (Op OpMul (Num (VInt 1)) (Sym "y"))
                (Op OpMul (Num (VInt 0)) (Sym "x"))) ∧
    (∀ fuel, n ≤ fuel →
       postvisitor fuel 2 differentiate (with_respect_to "x") h = (Ok r, h')) ∧
    (∀ fs cs fuel, 2 < fuel → str fs cs fuel h' r = Ok "1 * y + 0 * x").
Proof.
  assert (denotes [symbol_object "x"; symbol_object "y";
                   operator_object OpMul 0 1] 2 (Op OpMul (Sym "x") (Sym "y")))
    as Hd.
  { eapply denotes_Op; [reflexivity| |]; by apply denotes_Symbol. }
  split; [exact Hd|].
  exact (proj1 (postvisitor_differentiate_derivative _ 2 _ "x" Hd)).
Defined.

(** * The rule for symbols *)

(** C3 as stated fails: the rule compares the name with every value of the
    context, so an entry other than the target can make it answer one. *)
Lemma symbol_rule_counterexample :
  ¬ (∀ (h : heap) (expr : loc) (name x : string) (kw : kwargs) (o : list loc),
       h !! expr = Some (symbol_object name) →
       target kw = Some (Val (VStr x)) →
       differentiate expr o kw h
       = (Ok (length h),
          h ++ [number_object
                  (VInt (if String.eqb name x then 1 else 0))])).
Proof.
  intros H.
  specialize (H [symbol_object "y"] 0 "y" "x"
                [("with_respect_to", Val (VStr "x"));
                 ("order", Val (VStr "y"))] []
                eq_refl eq_refl).
  vm_compute in H. discriminate.
Qed.

(** C3 (amended): for a [Symbol] node the rule returns [Number(1)] if the
    name equals the value of some entry of the context, whatever its
    keyword, and [Number(0)] if it equals none; when the target is the only
    entry, that is: [Number(1)] exactly when the name is the target. *)
Theorem symbol_rule_any_context_value
    (h : heap) (expr : loc) (name : string) (o : list loc) (kw : kwargs) :
  h !! expr = Some (symbol_object name) →
  (Val (VStr name) ∈ kw.*2 →
     differentiate expr o kw h
     = (Ok (length h), h ++ [number_object (VInt 1)])) ∧
  (Val (VStr name) ∉ kw.*2 →
     differentiate expr o kw h
     = (Ok (length h), h ++ [number_object (VInt 0)])) ∧
  (∀ x, kw = with_respect_to x →
     differentiate expr o kw h
     = (Ok (length h),
        h ++ [number_object (VInt (if String.eqb name x then 1 else 0))])).
Proof.
  intros E. rewrite (differentiate_Symbol_run h expr name o kw E).
  split; [|split].
  - intros Hin. apply in_values_str in Hin. by rewrite Hin.
  - intros Hin. destruct (in_values (VStr name) kw) eqn:Ev; [|done].
    by apply in_values_str in Ev.
  - intros x ->. by rewrite in_values_with_respect_to.
Qed.

Lemma symbol_rule_any_context_value_witness :
  let h := [symbol_object "y"] in
  let kw := [("with_respect_to", Val (VStr "x")); ("order", Val (VStr "y"))] in
  h !! 0 = Some (symbol_object "y") ∧
  (Val (VStr "y") ∈ kw.*2 →
     differentiate 0 [] kw h = (Ok 1, h ++ [number_object (VInt 1)])).
Proof.
  split; [reflexivity|].
  exact (proj1 (symbol_rule_any_context_value
                  [symbol_object "y"] 0 "y" []
                  [("with_respect_to", Val (VStr "x"));
                   ("order", Val (VStr "y"))] eq_refl)).
Defined.

(** * Display text *)

(** C4: the text of an operator node is ["<left> <symbol> <right>"], each
    operand's text in parentheses exactly when the operand is an operator of
    strictly lower precedence than the node (never at equal precedence), and
    the text of a terminal is the string form of its value.
    [(Symbol("x") + Symbol("y")) * Symbol("z")] gives ["(x + y) * z"] and
    [Symbol("x") * Symbol("y") + Symbol("z")] gives ["x * y + z"]. *)
Theorem str_renders_by_precedence
    (fs : float → string) (cs : float → float → string)
    (h : heap) (l : loc) (t : tree) (fuel : nat) :
  denotes h l t →
  height t < fuel →
  str fs cs fuel h l = Ok (render fs cs t) ∧
  (∀ op a b tl tr,
     t = Op op tl tr → h !! l = Some (operator_object op a b) →
     ∃ sl sr,
       str fs cs (fuel - 1) h a = Ok sl ∧ str fs cs (fuel - 1) h b = Ok sr ∧
       str fs cs fuel h l
       = Ok (wrap op tl sl +:+ " " +:+ symbol op +:+ " " +:+ wrap op tr sr)) ∧
  (∀ op op' a b text,
     wrap op (Op op' a b) text
     = if decide (precedence op' < precedence op)%Z
       then "(" +:+ text +:+ ")" else text) ∧
  (∀ op v text, wrap op (Num v) text = text) ∧
  (∀ op name text, wrap op (Sym name) text = text) ∧
  (∀ v, h !! l = Some (number_object v) →
        str fs cs fuel h l = Ok (py_str fs cs v)) ∧
  (∀ name, h !! l = Some (symbol_object name) →
           str fs cs fuel h l = Ok name) ∧
  (∃ e h', sum_times_example [] = (Ok e, h') ∧
           str fs cs 3 h' e = Ok "(x + y) * z") ∧
  (∃ e h', product_plus_example [] = (Ok e, h') ∧
           str fs cs 3 h' e = Ok "x * y + z").
Proof.
  intros Hd Hf.
  split; [by apply str_denotes|].
  split.
  { intros op a b tl tr -> E.
    inversion Hd as [| |? ? a' b' ? ? E' Ha Hb]; subst.
    rewrite E in E'. injection E' as <- <-.
    simpl in Hf.
    exists (render fs cs tl), (render fs cs tr).
    split; [apply str_denotes; [done|lia]|].
    split; [apply str_denotes; [done|lia]|].
    by rewrite (str_denotes fs cs _ _ _ Hd) by (simpl; lia). }
  split.
  { intros op op' a b text. simpl. unfold parens.
    destruct (Z.ltb_spec (precedence op') (precedence op));
      case_decide; done || lia. }
  split; [done|]. split; [done|].
  split.
  { intros v E. destruct fuel; [lia|]. simpl. by rewrite E. }
  split.
  { intros name E. destruct fuel; [lia|]. simpl. by rewrite E. }
  split; by eexists _, _.
Qed.

Lemma str_renders_by_precedence_witness :
  let h := [symbol_object "x"; symbol_object "y"; symbol_object "z";
            operator_object OpSub 0 1; operator_object OpPow 3 2] in
  let t := Op OpPow (Op OpSub (Sym "x") (Sym "y")) (Sym "z") in
  denotes h 4 t ∧ height t < 3 ∧
  str (λ _, "") (λ _ _, "") 3 h 4 = Ok "(x - y) ^ z".
Proof.
  assert (denotes [symbol_object "x"; symbol_object "y"; symbol_object "z";
                   operator_object OpSub 0 1; operator_object OpPow 3 2] 4
            (Op OpPow (Op OpSub (Sym "x") (Sym "y")) (Sym "z"))) as Hd.
  { eapply denotes_Op; [reflexivity| |by apply denotes_Symbol].
    eapply denotes_Op; [reflexivity| |]; by apply denotes_Symbol. }
  assert (height (Op OpPow (Op OpSub (Sym "x") (Sym "y")) (Sym "z")) < 3)
    as Hf by (simpl; lia).
  split; [exact Hd|]. split; [exact Hf|].
  exact (proj1 (str_renders_by_precedence (λ _, "") (λ _ _, "")
                  _ 4 _ 3 Hd Hf)).
Defined.

(** * The rules for products, quotients and powers *)

(** C7: from the operand results [o0], [o1] and the operands [x0], [x1] of
    the node, the rule for [Mul] builds [o0 * x1 + o1 * x0], the rule for
    [Div] builds [(o0 * x1 - o1 * x0) / x1 ^ 2], and the rule for [Pow] builds
    [o0 * x1 * x0 ^ (x1 - 1)], in which the derivative of the exponent does
    not occur. *)
Theorem product_quotient_power_rules
    (h : heap) (expr x0 x1 o0 o1 : loc) (kw : kwargs)
    (ex0 ex1 eo0 eo1 : tree) :
  denotes h x0 ex0 →
  denotes h x1 ex1 →
  denotes h o0 eo0 →
  denotes h o1 eo1 →
  (h !! expr = Some (operator_object OpMul x0 x1) →
   ∃ r h',
     differentiate expr [o0; o1] kw h = (Ok r, h') ∧
     denotes h' r (Op OpAdd (Op OpMul eo0 ex1) (Op OpMul eo1 ex0))) ∧
  (h !! expr = Some (operator_object OpTruediv x0 x1) →
   ∃ r h',
     differentiate expr [o0; o1] kw h = (Ok r, h') ∧
     denotes h' r
       (Op OpTruediv
          (Op OpSub (Op OpMul eo0 ex1) (Op OpMul eo1 ex0))
          (Op OpPow ex1 (Num (VInt 2))))) ∧
  (h !! expr = Some (operator_object OpPow x0 x1) →
   ∃ r h',
     differentiate expr [o0; o1] kw h = (Ok r, h') ∧
     denotes h' r
       (Op OpMul (Op OpMul eo0 ex1)
                 (Op OpPow ex0 (Op OpSub ex1 (Num (VInt 1)))))).
Proof.
  intros Hx0 Hx1 Ho0 Ho1. split; [|split]; intros E.
  - destruct (rule_Mul h expr x0 x1 o0 o1 kw _ _ _ _ Hx0 Hx1 Ho0 Ho1 E)
      as (r & ext & Er & _ & Hr). eauto.
  - destruct (rule_Div h expr x0 x1 o0 o1 kw _ _ _ _ Hx0 Hx1 Ho0 Ho1 E)
      as (r & ext & Er & _ & Hr). eauto.
  - destruct (rule_Pow h expr x0 x1 o0 o1 kw _ _ _ _ Hx0 Hx1 Ho0 Ho1 E)
      as (r & ext & Er & _ & Hr). eauto.
Qed.

Lemma product_quotient_power_rules_witness :
  let h := [symbol_object "x"; symbol_object "n";
            operator_object OpPow 0 1;
            number_object (VInt 1); number_object (VInt 0)] in
  denotes h 0 (Sym "x") ∧ denotes h 1 (Sym "n") ∧
  denotes h 3 (Num (VInt 1)) ∧ denotes h 4 (Num (VInt 0)) ∧
  (h !! 2 = Some (operator_object OpPow 0 1) →
   ∃ r h',
     differentiate 2 [3; 4] [] h = (Ok r, h') ∧
     denotes h' r
       (Op OpMul (Op OpMul (Num (VInt 1)) (Sym "n"))
                 (Op OpPow (Sym "x") (Op OpSub (Sym "n") (Num (VInt 1)))))).
Proof.
  assert (∀ l name,
            [symbol_object "x"; symbol_object "n"; operator_object OpPow 0 1;
             number_object (VInt 1); number_object (VInt 0)] !! l
            = Some (symbol_object name) →
            denotes [symbol_object "x"; symbol_object "n";
                     operator_object OpPow 0 1;
                     number_object (VInt 1); number_object (VInt 0)] l
              (Sym name)) as HS by (intros; by apply denotes_Symbol).
  assert (∀ l v,
            [symbol_object "x"; symbol_object "n"; operator_object OpPow 0 1;
             number_object (VInt 1); number_object (VInt 0)] !! l
            = Some (number_object v) →
            denotes [symbol_object "x"; symbol_object "n";
                     operator_object OpPow 0 1;
                     number_object (VInt 1); number_object (VInt 0)] l
              (Num v)) as HN by (intros; by apply denotes_Number).
  split; [exact (HS 0 "x" eq_refl)|]. split; [exact (HS 1 "n" eq_refl)|].
  split; [exact (HN 3 _ eq_refl)|]. split; [exact (HN 4 _ eq_refl)|].
  exact (proj2 (proj2 (product_quotient_power_rules _ 2 0 1 3 4 [] _ _ _ _
                         (HS 0 "x" eq_refl) (HS 1 "n" eq_refl)
                         (HN 3 _ eq_refl) (HN 4 _ eq_refl)))).
Defined.

(** * Variants without a rule *)

(** C8: on a node whose class has no registered rule, nor derives from a
    class that has one, [differentiate] raises [NotImplementedError] with the
    message ["Cannot differentiate a "] followed by the name of the class; the
    store is left as it was, and the visitor passes the exception on. *)
Theorem differentiate_unregistered_variant
    (h : heap) (expr : loc) (obj : object) (o : list loc) (kw : kwargs) :
  h !! expr = Some obj →
  dispatch (ob_class obj) = None →
  differentiate expr o kw h
  = (Raise (NotImplementedError
              ("Cannot differentiate a " +:+ cls_name (ob_class obj))), h) ∧
  (operands obj = [] →
   ∀ fuel, postvisitor (S fuel) expr differentiate kw h
           = (Raise (NotImplementedError
                       ("Cannot differentiate a "
                          +:+ cls_name (ob_class obj))), h)).
Proof.
  intros E D. pose proof (differentiate_unregistered h expr obj o kw E D) as Hd.
  split; [done|]. intros Ho fuel.
  unfold postvisitor, postvisitor_calls. simpl.
  unfold mbind, M_bind, bind. simpl. unfold deref. rewrite E, Ho. simpl.
  by rewrite (differentiate_unregistered h expr obj [] kw E D).
Qed.

Lemma differentiate_unregistered_variant_witness :
  let modulo := cDerived "Mod" cOperator (Some 2%Z) (Some "%") in
  let h := [symbol_object "x"; Object cExpression [] None;
            Object modulo [0; 0] None] in
  (h !! 1 = Some (Object cExpression [] None) ∧
   dispatch cExpression = None ∧
   differentiate 1 [] (with_respect_to "x") h
   = (Raise (NotImplementedError "Cannot differentiate a Expression"), h)) ∧
  (h !! 2 = Some (Object modulo [0; 0] None) ∧
   dispatch modulo = None ∧
   differentiate 2 [3; 3] (with_respect_to "x") h
   = (Raise (NotImplementedError "Cannot differentiate a Mod"), h)).
Proof.
  intros modulo h. split.
  - split; [reflexivity|]. split; [reflexivity|].
    exact (proj1 (differentiate_unregistered_variant
                    h 1 (Object cExpression [] None) []
                    (with_respect_to "x") eq_refl eq_refl)).
  - split; [reflexivity|]. split; [reflexivity|].
    exact (proj1 (differentiate_unregistered_variant
                    h 2 (Object modulo [0; 0] None) [3; 3]
                    (with_respect_to "x") eq_refl eq_refl)).
Defined.

(** * Differentiation and its input *)

(** C9: computing a derivative changes no existing object: whatever the
    outcome, every object the store held is still there with the same class,
    operands and value, every reference stands for the same tree and has the
    same text; a returned derivative is an object allocated during the call.
    The new objects refer to the operands of the input where the rule uses
    the undifferentiated operand: the products built by the rule for [Mul]
    have the very objects [x1] and [x0] as operands. *)
Theorem differentiation_leaves_input_unchanged
    (fuel : nat) (root : loc) (kw : kwargs) (h : heap)
    (out : outcome loc) (h' : heap) :
  postvisitor fuel root differentiate kw h = (out, h') →
  (∀ l o, h !! l = Some o → h' !! l = Some o) ∧
  (∀ l t, denotes h l t → denotes h' l t) ∧
  (∀ fs cs n l s, str fs cs n h l = Ok s → str fs cs n h' l = Ok s) ∧
  (∀ r, out = Ok r → length h ≤ r < length h') ∧
  (∀ e o g out' g',
     differentiate e o kw g = (out', g') →
     (∀ l ob, g !! l = Some ob → g' !! l = Some ob) ∧
     (∀ r, out' = Ok r → length g ≤ r < length g')) ∧
  (∀ e x0 x1 o0 o1,
     h !! e = Some (operator_object OpMul x0 x1) →
     differentiate e [o0; o1] kw h
     = (Ok (2 + length h),
        h ++ [operator_object OpMul o0 x1;
              operator_object OpMul o1 x0;
              operator_object OpAdd (length h) (1 + length h)])).
Proof.
  intros E.
  pose proof (grows_postvisitor fuel root differentiate kw
                (λ e os, grows_differentiate e os kw) _ _ _ E) as [ext ->].
  split; [by intros l o; apply lookup_app_l_Some|].
  split; [by intros l t; apply denotes_app|].
  split; [by intros fs cs n l s; apply str_app|].
  split.
  { intros r ->.
    exact (postvisitor_fresh fuel root differentiate kw
             (λ e os, grows_differentiate e os kw)
             (λ e os, allocates_differentiate e os kw) _ _ _ E). }
  split.
  { intros e o g out' g' Ed. split.
    - destruct (grows_differentiate _ _ _ _ _ _ Ed) as [ext' ->].
      intros l ob. apply lookup_app_l_Some.
    - intros r ->. exact (allocates_differentiate _ _ _ _ _ _ Ed). }
  intros e x0 x1 o0 o1 Ee. by apply (differentiate_Mul_run h e x0 x1).
Qed.

Lemma differentiation_leaves_input_unchanged_witness :
  let h := [symbol_object "x"; symbol_object "x"; operator_object OpMul 0 1] in
  let h' := h ++ [number_object (VInt 1); number_object (VInt 1);
                  operator_object OpMul 4 1; operator_object OpMul 3 0;
                  operator_object OpAdd 5 6] in
  product_example [] = (Ok 2, h) ∧
  postvisitor 5 2 differentiate (with_respect_to "x") h = (Ok 7, h') ∧
  (∀ l o, h !! l = Some o → h' !! l = Some o) ∧
  (∀ fs cs n l s, str fs cs n h l = Ok s → str fs cs n h' l = Ok s) ∧
  (∀ r, Ok 7 = Ok r → length h ≤ r < length h') ∧
  str (λ _, "") (λ _ _, "") 3 h' 7 = Ok "1 * x + 1 * x".
Proof.
  intros h h'.
  assert (postvisitor 5 2 differentiate (with_respect_to "x") h = (Ok 7, h'))
    as E by (vm_compute; reflexivity).
  split; [reflexivity|]. split; [exact E|].
  pose (differentiation_leaves_input_unchanged
          5 2 (with_respect_to "x") h (Ok 7) h' E) as T.
  split; [exact (proj1 T)|].
  split; [exact (proj1 (proj2 (proj2 T)))|].
  split; [exact (proj1 (proj2 (proj2 (proj2 T))))|].
  reflexivity.
Defined.

(** * The visitor, whatever the function *)

Lemma pop_Some {A} (stack s : list A) (e : A) :
  pop stack = Some (s, e) → stack = s ++ [e].
Proof.
  unfold pop. destruct (reverse stack) as [|x rest] eqn:E; [done|].
  intros [= <- <-]. by rewrite <- (reverse_involutive stack), E, reverse_cons.
Qed.

Lemma pop_None {A} (stack : list A) : pop stack = None → stack = [].
Proof.
  unfold pop. destruct (reverse stack) as [|x rest] eqn:E; [|done].
  intros _. by rewrite <- (reverse_involutive stack), E.
Qed.

Lemma visited_insert_calls {R} (visited : gmap loc R) calls e r o :
  (∀ o, is_Some (visited !! o) ↔ o ∈ calls) →
  is_Some (<[e := r]> visited !! o) ↔ o ∈ calls ++ [e].
Proof.
  intros Hk. rewrite elem_of_app, list_elem_of_singleton, <- Hk.
  destruct (decide (e = o)) as [->|Hne].
  - rewrite lookup_insert_eq. split; eauto.
  - rewrite lookup_insert_ne by done. split; [by left|].
    intros [?|?]; [done|congruence].
Qed.

Lemma loop_ok_push {R} root s e us (visited : gmap loc R) calls :
  loop_ok root (s ++ [e]) visited calls →
  loop_ok root (s ++ [e] ++ us) visited calls.
Proof.
  intros [Hk [Hb|[Hn _]]]; [|by destruct s].
  split; [done|]. left. by destruct s.
Qed.

Lemma loop_ok_visit {R} root s e r (visited : gmap loc R) calls :
  loop_ok root (s ++ [e]) visited calls →
  loop_ok root s (<[e := r]> visited) (calls ++ [e]).
Proof.
  intros [Hk [Hb|[Hn _]]]; [|by destruct s].
  split.
  - intros o. by apply visited_insert_calls.
  - destruct s as [|b s]; [|by left].
    right. split; [done|]. simpl in Hb. by rewrite last_snoc.
Qed.

Section AnyFunction.

Context {R : Type}.
Variables (fn : loc → list R → kwargs → M R) (kw : kwargs) (root : loc).

(** The loop raises only what [fn] raised, and when it ends the root was
    the last node visited. *)
Lemma postvisitor_loop_outcome fuel :
  ∀ stack visited calls h out h',
    loop_ok root stack visited calls →
    postvisitor_loop fuel fn kw stack visited calls h = (out, h') →
    match out with
    | Ok vc => loop_ok root [] vc.1 vc.2
    | Raise x => ∃ e os g g', fn e os kw g = (Raise x, g')
    | Fault _ => True
    end.
Proof.
  induction fuel as [|fuel IH]; intros stack visited calls h out h' Hok;
    simpl; [by intros [= <- <-]|].
  destruct (pop stack) as [[s e]|] eqn:Ep.
  - apply pop_Some in Ep as ->.
    unfold mbind, M_bind, bind, deref.
    destruct (h !! e) as [obj|]; [|by intros [= <- <-]].
    destruct (filter _ (operands obj)) as [|u us] eqn:Eu.
    + apply filter_unvisited_nil in Eu.
      destruct (getitems_Some visited (operands obj) h Eu) as (rs & -> & _).
      destruct (fn e rs kw h) as [[r|x|f] g'] eqn:Ef.
      * apply IH. by apply loop_ok_visit.
      * intros [= <- <-]. eauto.
      * by intros [= <- <-].
    + apply IH. by apply loop_ok_push.
  - apply pop_None in Ep as ->. by intros [= <- <-].
Qed.

(** With a function that only allocates, every call comes after the calls
    on the operands of its node. *)
Lemma postvisitor_loop_operands_first h0 fuel :
  (∀ e os, grows (fn e os kw)) →
  ∀ stack visited calls (h : heap) vc h',
    h0 `prefix_of` h →
    (∀ o, is_Some (visited !! o) ↔ o ∈ calls) →
    operands_first h0 calls →
    postvisitor_loop fuel fn kw stack visited calls h = (Ok vc, h') →
    operands_first h0 vc.2.
Proof.
  intros Hg. induction fuel as [|fuel IH];
    intros stack visited calls h vc h' Hp Hk Hf; simpl; [done|].
  destruct (pop stack) as [[s e]|] eqn:Ep; [|by intros [= <- <-]].
  unfold mbind, M_bind, bind, deref.
  destruct (h !! e) as [obj|] eqn:Ee; [|by intros [=]].
  destruct (filter _ (operands obj)) as [|u us] eqn:Eu;
    [|eapply IH; eassumption].
  apply filter_unvisited_nil in Eu.
  destruct (getitems_Some visited (operands obj) h Eu) as (rs & -> & _).
  destruct (fn e rs kw h) as [[r|x|f] g'] eqn:Ef; try done.
  apply IH.
  - etrans; [done|]. by eapply Hg.
  - intros o. by apply visited_insert_calls.
  - intros i e' obj' o Hi He' Ho.
    destruct (decide (i < length calls)) as [Hlt|Hge].
    + rewrite lookup_app_l in Hi by done.
      rewrite take_app_le by lia. by eapply Hf.
    + rewrite lookup_app_r in Hi by lia.
      apply list_lookup_singleton_Some in Hi as [Hi <-].
      replace i with (length calls) by lia.
      rewrite take_app_length.
      pose proof (prefix_lookup_Some _ _ _ _ He' Hp) as E2.
      assert (obj = obj') as -> by (unfold heap, loc in *; congruence).
      apply Hk. by eapply Forall_forall in Eu.
Qed.

End AnyFunction.

(** * The visitor on a tree without shared nodes *)

Lemma visits_last h l order : visits h l order → l ∈ order.
Proof.
  destruct 1; [by apply list_elem_of_singleton|].
  rewrite !elem_of_app, list_elem_of_singleton. auto.
Qed.

Lemma filter_unvisited_all {R} (visited : gmap loc R) (os : list loc) :
  Forall (λ o, visited !! o = None) os →
  filter (λ o, visited !! o = None) os = os.
Proof.
  induction 1 as [|o os Ho _ IH]; [done|].
  by rewrite filter_cons_True, IH.
Qed.

Section NoSharing.

Context {R : Type}.
Variables (f : loc → list R → R) (kw : kwargs) (h : heap).

(** With the node [l] on top of the stack and nothing below [l] visited yet,
    the loop calls the function once on each node below [l], in the order
    of [visits], and comes back to the stack as it was below [l]. *)
Lemma visit_once l order :
  visits h l order →
  NoDup order →
  ∀ stack (visited : gmap loc R) calls,
    (∀ o, o ∈ order → visited !! o = None) →
    ∃ n visited',
      n ≤ 2 * length order ∧
      (∀ o, visited' !! o = None ↔ visited !! o = None ∧ o ∉ order) ∧
      (∀ o r, visited !! o = Some r → visited' !! o = Some r) ∧
      (∃ r, visited' !! l = Some r ∧ combines f h l r) ∧
      ∀ k, postvisitor_loop (n + k) (pure_fn f) kw (stack ++ [l])
             visited calls h
           = postvisitor_loop k (pure_fn f) kw stack
               visited' (calls ++ order) h.
Proof.
  induction 1 as [l obj E Eo|l obj a b la lb E Eo Ha IHa Hb IHb];
    intros Hnd stack visited calls Hun.
  - exists 1, (<[l := f l []]> visited).
    split; [simpl; lia|]. split; [|split; [|split]].
    + intros o. rewrite lookup_insert_None, list_elem_of_singleton.
      split; [intros [? ?]|intros [? ?]]; split; congruence.
    + intros o r Hr. rewrite lookup_insert_ne; [done|].
      intros <-. rewrite Hun in Hr; [done|]. by apply list_elem_of_singleton.
    + exists (f l []). rewrite lookup_insert_eq. split; [done|].
      by eapply combines_leaf.
    + intros k. simpl. rewrite pop_snoc.
      rewrite (bind_Ok _ _ _ _ _ (deref_Some _ _ _ E)), Eo. done.
  - apply NoDup_app in Hnd as (Hndb & Hdisj & Hnd).
    apply NoDup_app in Hnd as (Hnda & Hdisj' & _).
    destruct (IHb Hndb (stack ++ [l; a]) visited calls)
      as (nb & vb & Lb & Kb & Pb & (rb & Erb & Crb) & Eb).
    { intros o Ho. apply Hun. rewrite elem_of_app. auto. }
    destruct (IHa Hnda (stack ++ [l]) vb (calls ++ lb))
      as (na & va & La & Ka & Pa & (ra & Era & Cra) & Ea).
    { intros o Ho. apply Kb. split.
      - apply Hun. rewrite !elem_of_app. auto.
      - intros Hob. apply (Hdisj o Hob). rewrite elem_of_app. auto. }
    exists (S (nb + (na + 1))), (<[l := f l [ra; rb]]> va).
    split; [rewrite !length_app; simpl; lia|]. split; [|split; [|split]].
    + intros o. rewrite lookup_insert_None, Ka, Kb.
      rewrite !elem_of_app, list_elem_of_singleton. split.
      * intros [[[Hv Hb'] Ha'] Hl]. split; [done|].
        intros [?|[?|?]]; [done|done|congruence].
      * intros [Hv Ho]. split; [|intros <-; auto].
        split; [split; [done|]|]; intros ?; auto.
    + intros o r Hr. rewrite lookup_insert_ne; [by apply Pa, Pb|].
      intros <-. rewrite Hun in Hr; [done|].
      rewrite !elem_of_app, list_elem_of_singleton. auto.
    + exists (f l [ra; rb]). rewrite lookup_insert_eq. split; [done|].
      by eapply combines_node.
    + intros k. simpl. rewrite pop_snoc.
      rewrite (bind_Ok _ _ _ _ _ (deref_Some _ _ _ E)), Eo.
      rewrite filter_unvisited_all.
      2:{ repeat constructor; apply Hun; rewrite !elem_of_app.
          - right. left. by eapply visits_last.
          - left. by eapply visits_last. }
      change (stack ++ [l; a; b]) with (stack ++ [l; a] ++ [b]).
      rewrite app_assoc, <- Nat.add_assoc, Eb.
      change (stack ++ [l; a]) with (stack ++ [l] ++ [a]).
      rewrite app_assoc, <- Nat.add_assoc, Ea.
      simpl. rewrite pop_snoc.
      rewrite (bind_Ok _ _ _ _ _ (deref_Some _ _ _ E)), Eo.
      assert (va !! b = Some rb) as Erb' by by apply Pa.
      rewrite filter_cons_False by (by rewrite Era).
      rewrite filter_cons_False by (by rewrite Erb').
      simpl. unfold getitem. rewrite Era, Erb'. simpl.
      unfold mbind, M_bind, bind, ret, pure_fn. simpl.
      by rewrite <- !app_assoc.
Qed.

End NoSharing.

(** * Further properties of the visitor *)

Lemma grows_pure_fn {R} (f : loc → list R → R) e os kw :
  grows (pure_fn f e os kw).
Proof. apply grows_ret. Qed.

Lemma loop_ok_initial {R} root : loop_ok root [root] (∅ : gmap loc R) [].
Proof.
  split; [|by left]. intros o. rewrite lookup_empty, elem_of_nil.
  split; [by intros [? ?]|done].
Qed.

Lemma operands_first_reachable h root calls e :
  last calls = Some root →
  operands_first h calls →
  reachable h root e →
  e ∈ calls.
Proof.
  intros Hl Hf. induction 1 as [|e obj o _ IH E Ho].
  - destruct calls as [|c cs] using rev_ind; [done|].
    rewrite last_snoc in Hl. injection Hl as ->.
    rewrite elem_of_app, list_elem_of_singleton. auto.
  - apply list_elem_of_lookup in IH as [i Hi].
    eapply subseteq_take, (Hf i e obj o Hi E Ho).
Qed.

(** X1: whatever the combining function, as long as it only allocates: when
    [postvisitor] returns, the function was called on every node after it
    was called on each operand of that node, the last call was on the root,
    and every node reached from the root through operands was called on at
    least once. *)
Theorem postvisitor_calls_post_order
    {R} (fuel : nat) (root : loc) (fn : loc → list R → kwargs → M R)
    (kw : kwargs) (h : heap) (r : R) (calls : list loc) (h' : heap) :
  (∀ e os, grows (fn e os kw)) →
  postvisitor_calls fuel root fn kw h = (Ok (r, calls), h') →
  last calls = Some root ∧
  operands_first h calls ∧
  ∀ e, reachable h root e → e ∈ calls.
Proof.
  intros Hg. unfold postvisitor_calls, mbind, M_bind, bind.
  destruct (postvisitor_loop fuel fn kw [root] ∅ [] h) as [[vc| |] h1] eqn:El;
    try done.
  pose proof (postvisitor_loop_outcome fn kw root fuel _ _ _ _ _ _
                (loop_ok_initial root) El) as [Hk [Hb|[_ Hl]]]; [done|].
  assert (operands_first h vc.2) as Hf.
  { eapply (postvisitor_loop_operands_first fn kw h fuel Hg); [done| | |exact El].
    - intros o. rewrite lookup_empty, elem_of_nil.
      split; [by intros [? ?]|done].
    - by intros i e obj o Hi. }
  unfold getitem. destruct (vc.1 !! root); [|done].
  intros [= <- <- <-]. split; [done|]. split; [done|].
  intros e He. by eapply operands_first_reachable.
Qed.

Lemma postvisitor_calls_post_order_witness :
  let h := [symbol_object "x"; symbol_object "x";
            operator_object OpAdd 0 1; operator_object OpMul 2 2] in
  let count := pure_fn (λ (_ : loc) (os : list nat), S (list_sum os)) in
  (∀ e os, grows (count e os [])) ∧
  postvisitor_calls 8 3 count [] h = (Ok (7, [1; 0; 2; 2; 3]), h) ∧
  last [1; 0; 2; 2; 3] = Some 3 ∧
  operands_first h [1; 0; 2; 2; 3] ∧
  ∀ e, reachable h 3 e → e ∈ [1; 0; 2; 2; 3].
Proof.
  intros h count.
  assert (∀ e os, grows (count e os [])) as Hg
    by (intros; apply grows_pure_fn).
  assert (postvisitor_calls 8 3 count [] h = (Ok (7, [1; 0; 2; 2; 3]), h))
    as E by (vm_compute; reflexivity).
  split; [exact Hg|]. split; [exact E|].
  exact (postvisitor_calls_post_order 8 3 count [] h 7 _ h Hg E).
Defined.

(** X2: [postvisitor] raises nothing of its own: an exception that leaves
    it was raised by a call of the combining function.  In particular its
    own dictionary lookups never raise [KeyError]. *)
Theorem postvisitor_raises_only_from_fn
    {R} (fuel : nat) (root : loc) (fn : loc → list R → kwargs → M R)
    (kw : kwargs) (h : heap) (x : exn) (h' : heap) :
  postvisitor fuel root fn kw h = (Raise x, h') →
  ∃ e os g g', fn e os kw g = (Raise x, g').
Proof.
  unfold postvisitor, postvisitor_calls, mbind, M_bind, bind.
  destruct (postvisitor_loop fuel fn kw [root] ∅ [] h) as [[vc| |] h1] eqn:El.
  - pose proof (postvisitor_loop_outcome fn kw root fuel _ _ _ _ _ _
                  (loop_ok_initial root) El) as [Hk [Hb|[_ Hl]]]; [done|].
    assert (is_Some (vc.1 !! root)) as [r Er].
    { apply Hk. destruct vc.2 as [|c cs] using rev_ind; [done|].
      rewrite last_snoc in Hl. injection Hl as ->.
      rewrite elem_of_app, list_elem_of_singleton. auto. }
    unfold getitem. by rewrite Er.
  - intros [= <- <-].
    exact (postvisitor_loop_outcome fn kw root fuel _ _ _ _ _ _
             (loop_ok_initial root) El).
  - done.
Qed.

Lemma postvisitor_raises_only_from_fn_witness :
  let h := [Object cExpression [] None] in
  postvisitor 2 0 differentiate [] h
  = (Raise (NotImplementedError "Cannot differentiate a Expression"), h) ∧
  ∃ e os g g',
    differentiate e os [] g
    = (Raise (NotImplementedError "Cannot differentiate a Expression"), g').
Proof.
  intros h.
  assert (postvisitor 2 0 differentiate [] h
          = (Raise (NotImplementedError "Cannot differentiate a Expression"),
             h)) as E by reflexivity.
  split; [exact E|].
  exact (postvisitor_raises_only_from_fn 2 0 differentiate [] h _ h E).
Defined.

(** X3: on a tree none of whose nodes is shared, and with a combining
    function without effects, [postvisitor] calls the function exactly once
    on each node (right operand's subtree, then left operand's, then the
    node), returns the bottom-up combination and leaves the store as it
    was; twice as many iterations as there are nodes suffice. *)
Theorem postvisitor_once_without_sharing
    {R} (f : loc → list R → R) (kw : kwargs) (h : heap)
    (root : loc) (order : list loc) (fuel : nat) :
  visits h root order →
  NoDup order →
  2 * length order < fuel →
  ∃ r, combines f h root r ∧
       postvisitor_calls fuel root (pure_fn f) kw h = (Ok (r, order), h).
Proof.
  intros Hv Hnd Hf.
  destruct (visit_once f kw h root order Hv Hnd [] ∅ [])
    as (n & v & Ln & _ & _ & (r & Er & Cr) & E); [by intros|].
  exists r. split; [done|].
  replace fuel with (n + S (fuel - S n)) by lia.
  unfold postvisitor_calls, mbind, M_bind, bind. simpl app in E.
  rewrite E. simpl. unfold getitem. by rewrite Er.
Qed.

Lemma postvisitor_once_without_sharing_witness :
  let h := [symbol_object "x"; symbol_object "y"; operator_object OpMul 0 1] in
  let size := λ (_ : loc) (os : list nat), S (list_sum os) in
  visits h 2 [1; 0; 2] ∧ NoDup [1; 0; 2] ∧ 2 * length [1; 0; 2] < 7 ∧
  ∃ r, combines size h 2 r ∧
       postvisitor_calls 7 2 (pure_fn size) [] h = (Ok (r, [1; 0; 2]), h).
Proof.
  intros h size.
  assert (visits h 2 [1; 0; 2]) as Hv.
  { apply (visits_node h 2 (operator_object OpMul 0 1) 0 1 [0] [1]);
      [reflexivity|reflexivity| |].
    - by apply (visits_leaf h 0 (symbol_object "x")).
    - by apply (visits_leaf h 1 (symbol_object "y")). }
  assert (NoDup [1; 0; 2]) as Hnd
    by (apply (bool_decide_unpack _); vm_compute; exact I).
  assert (2 * length [1; 0; 2] < 7) as Hf by (simpl; lia).
  split; [exact Hv|]. split; [exact Hnd|]. split; [exact Hf|].
  exact (postvisitor_once_without_sharing size [] h 2 _ 7 Hv Hnd Hf).
Defined.

(** * The rules, for any class that dispatches to them *)

(** Evaluates a rule on a store that holds [expr], given its class's
    dispatch [D] and its operands [Eo]. *)
Ltac run_rule_for E D Eo :=
  unfold differentiate, differentiate_default, differentiate_Number,
    differentiate_Symbol, differentiate_Add, differentiate_Sub,
    differentiate_Mul, differentiate_Div, differentiate_Pow,
    getattr_value, getattr_operand,
    __add__, __sub__, __mul__, __truediv__, __pow__,
    Add, Sub, Mul, Div, Pow, Number, Number_init, Terminal_init,
    Expression_init, alloc, deref, index, raise,
    mbind, M_bind, bind, ret;
  simpl;
  repeat (progress (rewrite ?E, ?(lookup_app_l_Some _ _ _ _ E), ?D, ?Eo,
                      <- ?app_assoc); simpl);
  rewrite ?length_app_cons, ?app_nil_r.

Section Dispatch.

Variables (h : heap) (e : loc) (obj : object) (x0 x1 : loc) (kw : kwargs).
Hypothesis E : h !! e = Some obj.
Hypothesis Eo : operands obj = [x0; x1].

Lemma differentiate_dispatch_run op o0 o1 rest :
  dispatch (ob_class obj) = Some (binop_cls op) →
  differentiate e (o0 :: o1 :: rest) kw h
  = (Ok (length (rule_cells op (length h) x0 x1 o0 o1) - 1 + length h),
     h ++ rule_cells op (length h) x0 x1 o0 o1).
Proof using E Eo.
  intros D. destruct op; simpl in D; by run_rule_for E D Eo.
Qed.

Lemma differentiate_Pow_head o0 o1 rest :
  dispatch (ob_class obj) = Some cPow →
  differentiate e (o0 :: rest) kw h
  = (Ok (4 + length h), h ++ rule_cells OpPow (length h) x0 x1 o0 o1).
Proof using E Eo. intros D. by run_rule_for E D Eo. Qed.

Lemma differentiate_too_few op o :
  dispatch (ob_class obj) = Some (binop_cls op) →
  length o < results_read op →
  ∃ ext,
    differentiate e o kw h
    = (Raise (IndexError "tuple index out of range"), h ++ ext) ∧
    length ext ≤ 1.
Proof using E Eo.
  intros D Hl.
  destruct o as [|o0 [|o1 rest]]; [| |destruct op; simpl in Hl; lia].
  - exists []. split; [|simpl; lia].
    destruct op; simpl in D; by run_rule_for E D Eo.
  - destruct op; simpl in Hl; try lia; simpl in D.
    + exists []. split; [|simpl; lia]. by run_rule_for E D Eo.
    + exists []. split; [|simpl; lia]. by run_rule_for E D Eo.
    + exists [operator_object OpMul o0 x1]. split; [|simpl; lia].
      by run_rule_for E D Eo.
    + exists [operator_object OpMul o0 x1]. split; [|simpl; lia].
      by run_rule_for E D Eo.
Qed.

End Dispatch.

Lemma rule_cells_tree h op x0 x1 o0 o1 ex0 ex1 eo0 eo1 :
  denotes h x0 ex0 → denotes h x1 ex1 →
  denotes h o0 eo0 → denotes h o1 eo1 →
  denotes (h ++ rule_cells op (length h) x0 x1 o0 o1)
    (length (rule_cells op (length h) x0 x1 o0 o1) - 1 + length h)
    (rule_tree op eo0 eo1 ex0 ex1).
Proof.
  intros Hx0 Hx1 Ho0 Ho1. destruct op; simpl; build_tree.
Qed.

Lemma derivative_rule_tree x op a b :
  derivative x (Op op a b)
  = rule_tree op (derivative x a) (derivative x b) a b.
Proof. by destruct op. Qed.

(** * Further properties of differentiation *)

Lemma dispatch_binop_cls op : dispatch (binop_cls op) = Some (binop_cls op).
Proof. by destruct op. Qed.

(** X4: a node whose class is an operator class, or derives from one without
    a rule of its own, is differentiated by that operator's rule: from the
    first two operand results and the node's two operands the call builds the
    tree of the rule, out of the five operator classes and [Number] only, and
    ignores any further operand results. *)
Theorem differentiate_nearest_registered_class
    (h : heap) (e : loc) (obj : object) (op : binop) (x0 x1 o0 o1 : loc)
    (rest : list loc) (kw : kwargs) (ex0 ex1 eo0 eo1 : tree) :
  h !! e = Some obj →
  dispatch (ob_class obj) = Some (binop_cls op) →
  operands obj = [x0; x1] →
  denotes h x0 ex0 → denotes h x1 ex1 →
  denotes h o0 eo0 → denotes h o1 eo1 →
  ∃ r ext,
    differentiate e (o0 :: o1 :: rest) kw h = (Ok r, h ++ ext) ∧
    denotes (h ++ ext) r (rule_tree op eo0 eo1 ex0 ex1) ∧
    ∀ x a b,
      derivative x (Op op a b)
      = rule_tree op (derivative x a) (derivative x b) a b.
Proof.
  intros E D Eo Hx0 Hx1 Ho0 Ho1. eexists _, _.
  split; [by apply (differentiate_dispatch_run h e obj x0 x1 kw E Eo)|].
  split; [by apply rule_cells_tree|].
  intros x a b. apply derivative_rule_tree.
Qed.

Lemma differentiate_nearest_registered_class_witness :
  let dot := cDerived "Dot" cMul None (Some ".") in
  let h := [symbol_object "x"; symbol_object "y"; Object dot [0; 1] None;
            number_object (VInt 1); number_object (VInt 0)] in
  dispatch dot = Some cMul ∧
  ∃ r ext,
    differentiate 2 [3; 4; 4] (with_respect_to "x") h = (Ok r, h ++ ext) ∧
    denotes (h ++ ext) r
      (Op OpAdd (Op OpMul (Num (VInt 1)) (Sym "y"))
                (Op OpMul (Num (VInt 0)) (Sym "x"))).
Proof.
  intros dot h. split; [reflexivity|].
  destruct (differentiate_nearest_registered_class
              h 2 (Object dot [0; 1] None) OpMul 0 1 3 4 [4]
              (with_respect_to "x") (Sym "x") (Sym "y")
              (Num (VInt 1)) (Num (VInt 0))
              eq_refl eq_refl eq_refl
              (tree_of_denotes 1 h 0 _ eq_refl)
              (tree_of_denotes 1 h 1 _ eq_refl)
              (tree_of_denotes 1 h 3 _ eq_refl)
              (tree_of_denotes 1 h 4 _ eq_refl))
    as (r & ext & Er & Hr & _).
  exists r, ext. split; [exact Er|exact Hr].
Defined.

(** X5: the rule for powers reads only the first operand result: whatever
    follows it, if anything, the call builds the same objects,
    [o0 * x1 * x0 ^ (x1 - 1)]; it succeeds with a single operand result. *)
Theorem power_rule_reads_first_result_only
    (h : heap) (e : loc) (obj : object) (x0 x1 o0 : loc)
    (rest rest' : list loc) (kw : kwargs) (ex0 ex1 eo0 : tree) :
  h !! e = Some obj →
  dispatch (ob_class obj) = Some cPow →
  operands obj = [x0; x1] →
  denotes h x0 ex0 → denotes h x1 ex1 → denotes h o0 eo0 →
  differentiate e (o0 :: rest) kw h = differentiate e (o0 :: rest') kw h ∧
  ∃ r h',
    differentiate e [o0] kw h = (Ok r, h') ∧
    denotes h' r
      (Op OpMul (Op OpMul eo0 ex1)
                (Op OpPow ex0 (Op OpSub ex1 (Num (VInt 1))))).
Proof.
  intros E D Eo Hx0 Hx1 Ho0. split.
  - by rewrite !(differentiate_Pow_head h e obj x0 x1 kw E Eo o0 o0 _ D).
  - eexists _, _.
    split; [exact (differentiate_Pow_head h e obj x0 x1 kw E Eo o0 o0 [] D)|].
    exact (rule_cells_tree h OpPow x0 x1 o0 o0 ex0 ex1 eo0 eo0
             Hx0 Hx1 Ho0 Ho0).
Qed.

Lemma power_rule_reads_first_result_only_witness :
  let h := [symbol_object "x"; symbol_object "x";
            operator_object OpPow 0 1; number_object (VInt 1)] in
  differentiate 2 [3; 3] [] h = differentiate 2 [3] [] h ∧
  ∃ r h',
    differentiate 2 [3] [] h = (Ok r, h') ∧
    denotes h' r
      (Op OpMul (Op OpMul (Num (VInt 1)) (Sym "x"))
                (Op OpPow (Sym "x") (Op OpSub (Sym "x") (Num (VInt 1))))).
Proof.
  intros h.
  exact (power_rule_reads_first_result_only
           h 2 (operator_object OpPow 0 1) 0 1 3 [3] [] []
           (Sym "x") (Sym "x") (Num (VInt 1))
           eq_refl eq_refl eq_refl
           (tree_of_denotes 1 h 0 _ eq_refl)
           (tree_of_denotes 1 h 1 _ eq_refl)
           (tree_of_denotes 1 h 3 _ eq_refl)).
Defined.

(** X6: called with fewer operand results than its rule reads (two, one
    for a power), [differentiate] raises [IndexError] on an operator node;
    by then it has built at most one object (the first product of the
    rules for products and quotients), and changed none. *)
Theorem differentiate_too_few_results
    (h : heap) (e : loc) (obj : object) (op : binop) (x0 x1 : loc)
    (o : list loc) (kw : kwargs) :
  h !! e = Some obj →
  dispatch (ob_class obj) = Some (binop_cls op) →
  operands obj = [x0; x1] →
  length o < results_read op →
  ∃ ext,
    differentiate e o kw h
    = (Raise (IndexError "tuple index out of range"), h ++ ext) ∧
    length ext ≤ 1.
Proof.
  intros E D Eo Hl.
  exact (differentiate_too_few h e obj x0 x1 kw E Eo op o D Hl).
Qed.

Lemma differentiate_too_few_results_witness :
  let h := [symbol_object "x"; symbol_object "y";
            operator_object OpTruediv 0 1; number_object (VInt 1)] in
  length [3] < results_read OpTruediv ∧
  ∃ ext,
    differentiate 2 [3] [] h
    = (Raise (IndexError "tuple index out of range"), h ++ ext) ∧
    length ext ≤ 1.
Proof.
  intros h.
  assert (length [3] < results_read OpTruediv) as Hl by (simpl; lia).
  split; [exact Hl|].
  exact (differentiate_too_few_results
           h 2 (operator_object OpTruediv 0 1) OpTruediv 0 1 [3] []
           eq_refl eq_refl eq_refl Hl).
Defined.

(** * Arithmetic with a literal that is not a number *)

(** X7: an arithmetic operation between an expression and a literal that
    is not numeric raises the [TypeError] of [Number], for each of the five
    operations and on either side, and builds nothing. *)
Theorem arithmetic_rejects_non_numeric_literal
    (op : binop) (e : loc) (c : pyvalue) (h : heap) :
  ¬ numeric c →
  expr_op op e (Val c) h
  = (Raise (TypeError ("Expected a number, got a "
                         +:+ type_repr (type_of c) +:+ ".")), h) ∧
  value_op op c e h
  = (Raise (TypeError ("Expected a number, got a "
                         +:+ type_repr (type_of c) +:+ ".")), h).
Proof.
  intros Hc. pose proof (Number_not_numeric c h Hc) as E.
  split; destruct op; simpl;
    unfold __add__, __sub__, __mul__, __truediv__, __pow__,
      __radd__, __rsub__, __rmul__, __rtruediv__, __rpow__;
    by rewrite (bind_Raise _ _ _ _ _ E).
Qed.

Lemma arithmetic_rejects_non_numeric_literal_witness :
  let h := [symbol_object "x"] in
  ¬ numeric (VStr "abc") ∧
  expr_op OpAdd 0 (Val (VStr "abc")) h
  = (Raise (TypeError "Expected a number, got a <class 'str'>."), h) ∧
  value_op OpAdd (VStr "abc") 0 h
  = (Raise (TypeError "Expected a number, got a <class 'str'>."), h).
Proof.
  intros h.
  assert (¬ numeric (VStr "abc")) as Hc by (simpl; tauto).
  split; [exact Hc|].
  exact (arithmetic_rejects_non_numeric_literal OpAdd 0 (VStr "abc") h Hc).
Defined.

(** * Building, then reading back *)

Lemma numeric_leaves_dec t : {numeric_leaves t} + {¬ numeric_leaves t}.
Proof.
  induction t as [v|name|op l [IHl|IHl] r [IHr|IHr]]; simpl;
    try (right; tauto); try (left; tauto).
  destruct v; simpl; (left; exact I) || (right; tauto).
Qed.

Lemma build_ok t :
  numeric_leaves t →
  ∀ h, ∃ ext,
    build t h = (Ok (length h + node_count t - 1), h ++ ext) ∧
    length ext = node_count t ∧
    denotes (h ++ ext) (length h + node_count t - 1) t.
Proof.
  induction t as [v|name|op l IHl r IHr]; simpl; intros Hn h.
  - exists [number_object v]. rewrite Number_numeric by done.
    replace (length h + 1 - 1) with (length h) by lia.
    split; [done|]. split; [done|].
    apply denotes_Number, lookup_snoc_length.
  - exists [symbol_object name]. rewrite Symbol_textual by done.
    replace (length h + 1 - 1) with (length h) by lia.
    split; [done|]. split; [done|].
    apply denotes_Symbol, lookup_snoc_length.
  - destruct Hn as [Hl Hr].
    destruct (IHl Hl h) as (el & El & Ll & Dl).
    destruct (IHr Hr (h ++ el)) as (er & Er & Lr & Dr).
    rewrite length_app, Ll in Er, Dr.
    exists (el ++ er ++ [operator_object op (length h + node_count l - 1)
                           (length h + node_count l + node_count r - 1)]).
    rewrite (bind_Ok _ _ _ _ _ El), (bind_Ok _ _ _ _ _ Er), expr_op_Obj.
    rewrite !length_app, Ll, Lr. simpl.
    replace (length h + S (node_count l + node_count r) - 1)
      with (length h + node_count l + node_count r) by lia.
    rewrite !app_assoc. split; [done|]. split; [lia|].
    eapply denotes_Op.
    + pose proof (lookup_snoc_length ((h ++ el) ++ er)
                    (operator_object op (length h + node_count l - 1)
                       (length h + node_count l + node_count r - 1)) []) as K.
      rewrite !length_app, Ll, Lr in K. exact K.
    + do 2 apply denotes_app. exact Dl.
    + apply denotes_app. exact Dr.
Qed.

Lemma build_rejects t :
  ¬ numeric_leaves t →
  ∀ h, ∃ msg h', build t h = (Raise (TypeError msg), h').
Proof.
  induction t as [v|name|op l IHl r IHr]; simpl; intros Hn h.
  - eexists _, _. by apply Number_not_numeric.
  - tauto.
  - destruct (numeric_leaves_dec l) as [Hl|Hl].
    + destruct (build_ok l Hl h) as (el & El & _).
      destruct (IHr (λ Hr, Hn (conj Hl Hr)) (h ++ el)) as (msg & h' & Er).
      exists msg, h'.
      by rewrite (bind_Ok _ _ _ _ _ El), (bind_Raise _ _ _ _ _ Er).
    + destruct (IHl Hl h) as (msg & h' & El).
      exists msg, h'. by rewrite (bind_Raise _ _ _ _ _ El).
Qed.

(** X8: a tree built with the constructors and the operators unfolds to
    itself: building [t] succeeds exactly when every number in it is
    numeric, allocates one object per node of [t] and changes no object;
    the reference returned stands for [t] and has the text of [t].  With a
    number that is not numeric the build raises [TypeError]. *)
Theorem build_round_trip (t : tree) (h : heap) :
  (numeric_leaves t →
   ∃ r h',
     build t h = (Ok r, h') ∧
     denotes h' r t ∧
     length h' = length h + node_count t ∧
     (∀ l o, h !! l = Some o → h' !! l = Some o) ∧
     (∀ fs cs fuel, height t < fuel →
        str fs cs fuel h' r = Ok (render fs cs t))) ∧
  (¬ numeric_leaves t →
   ∃ msg h', build t h = (Raise (TypeError msg), h')).
Proof.
  split; [|intros Hn; by apply build_rejects].
  intros Hn. destruct (build_ok t Hn h) as (ext & E & L & D).
  eexists _, _. split; [exact E|]. split; [exact D|].
  split; [rewrite length_app; lia|].
  split; [intros l o; apply lookup_app_l_Some|].
  intros fs cs fuel Hf. by apply str_denotes.
Qed.

(** * Differentiation in an arbitrary context *)

Section AnyContext.

Variables (h0 : heap) (kw : kwargs).

Local Abbreviation is_derivative_in := (is_derivative_in h0 kw).

Lemma is_derivative_in_app e r h ext :
  is_derivative_in e r h → is_derivative_in e r (h ++ ext).
Proof. intros (t & He & Hr). exists t. split; [done|by apply denotes_app]. Qed.

Lemma differentiate_is_derivative_in e t obj rs h :
  denotes h0 e t →
  h0 !! e = Some obj →
  h0 `prefix_of` h →
  Forall2 (λ o r, is_derivative_in o r h) (operands obj) rs →
  ∃ r ext,
    differentiate e rs kw h = (Ok r, h ++ ext) ∧
    is_derivative_in e r (h ++ ext).
Proof.
  intros He Eo Hp F. pose proof (prefix_lookup_Some _ _ _ _ Eo Hp) as Eh.
  inversion He as [? v E|? name E|? op a b ea eb E Ha Hb]; subst;
    rewrite E in Eo; injection Eo as <-.
  - eexists _, _. split; [by eapply differentiate_Number_run|].
    exists (Num v). split; [done|].
    apply denotes_Number, lookup_snoc_length.
  - eexists _, _. split; [by eapply differentiate_Symbol_run|].
    exists (Sym name). split; [done|]. simpl.
    destruct (in_values (VStr name) kw);
      apply denotes_Number, lookup_snoc_length.
  - simpl in F.
    apply Forall2_cons_inv_l in F as (ra & rs' & Ga & F & ->).
    apply Forall2_cons_inv_l in F as (rb & rs'' & Gb & F & ->).
    apply Forall2_nil_inv_l in F as ->.
    destruct Ga as (ta & Hta & Hra), Gb as (tb & Htb & Hrb).
    rewrite (denotes_functional _ _ _ _ Hta Ha) in Hra.
    rewrite (denotes_functional _ _ _ _ Htb Hb) in Hrb.
    eexists _, _. split.
    + apply (differentiate_dispatch_run h e _ a b kw Eh eq_refl op).
      apply dispatch_binop_cls.
    + exists (Op op ea eb). split; [done|].
      apply rule_cells_tree; try done; by eapply denotes_prefix.
Qed.

Lemma postvisitor_derivative_in root t :
  denotes h0 root t →
  ∃ n r h',
    h0 `prefix_of` h' ∧
    denotes h' r (derivative_in kw t) ∧
    ∀ fuel, n ≤ fuel →
      postvisitor fuel root differentiate kw h0 = (Ok r, h').
Proof.
  intros Hr.
  destruct (postvisitor_calls_Good differentiate kw h0
              is_derivative_in is_derivative_in_app
              differentiate_is_derivative_in root t Hr)
    as (n & r & calls & h' & Hp & (t' & Ht' & Hd) & E).
  rewrite (denotes_functional _ _ _ _ Ht' Hr) in Hd.
  exists n, r, h'. split; [done|]. split; [done|].
  intros fuel Hf. unfold postvisitor.
  by rewrite (bind_Ok _ _ _ _ _ (E fuel Hf)).
Qed.

End AnyContext.

Lemma derivative_in_with_respect_to x t :
  derivative_in (with_respect_to x) t = derivative x t.
Proof.
  induction t as [v|name|op l IHl r IHr]; simpl; [done| |].
  - by rewrite in_values_with_respect_to.
  - rewrite IHl, IHr. by destruct op.
Qed.

Lemma in_values_no_string name kw :
  (∀ s, Val (VStr s) ∉ kw.*2) → in_values (VStr name) kw = false.
Proof.
  intros Hno. destruct (in_values (VStr name) kw) eqn:E; [|done].
  apply in_values_str in E. by apply Hno in E.
Qed.

(** X9: for every context, [postvisitor(expr, differentiate, **context)]
    returns the tree of the rules applied bottom-up in which a symbol counts
    as the variable exactly when its name is the value of some entry.  A
    context with the single entry [x] gives the derivative with respect to
    [x]; in a context that holds no string (an empty one, or one that passes a
    [Symbol] instead of its name) every symbol is a constant. *)
Theorem postvisitor_differentiate_any_context
    (h : heap) (root : loc) (t : tree) (kw : kwargs) :
  denotes h root t →
  (∃ n r h',
     denotes h' r (derivative_in kw t) ∧
     ∀ fuel, n ≤ fuel →
       postvisitor fuel root differentiate kw h = (Ok r, h')) ∧
  (∀ x, derivative_in (with_respect_to x) t = derivative x t) ∧
  ((∀ s, Val (VStr s) ∉ kw.*2) →
   ∀ name, derivative_in kw (Sym name) = zero).
Proof.
  intros Hr. split; [|split].
  - destruct (postvisitor_derivative_in h kw root t Hr)
      as (n & r & h' & _ & Hd & E). eauto.
  - intros x. apply derivative_in_with_respect_to.
  - intros Hno name. simpl. by rewrite in_values_no_string.
Qed.

Lemma postvisitor_differentiate_any_context_witness :
  let h := [symbol_object "x"; symbol_object "y"; operator_object OpAdd 0 1] in
  let kw := [("a", Val (VStr "x")); ("b", Val (VStr "y")); ("c", Obj 0)] in
  denotes h 2 (Op OpAdd (Sym "x") (Sym "y")) ∧
  ∃ n r h',
    denotes h' r (Op OpAdd (Num (VInt 1)) (Num (VInt 1))) ∧
    ∀ fuel, n ≤ fuel → postvisitor fuel 2 differentiate kw h = (Ok r, h').
Proof.
  intros h kw.
  assert (denotes h 2 (Op OpAdd (Sym "x") (Sym "y"))) as Hd
    by exact (tree_of_denotes 2 h 2 _ eq_refl).
  split; [exact Hd|].
  exact (proj1 (postvisitor_differentiate_any_context h 2 _ kw Hd)).
Defined.

(** * Differentiating again *)

(** X10: what differentiation returns can be differentiated again: with
    enough fuel, [n] calls in a row, each on the result of the one before,
    return the tree of the rules applied [n] times. *)
Theorem differentiate_times_derivative
    (n : nat) (kw : kwargs) (h : heap) (root : loc) (t : tree) :
  denotes h root t →
  ∃ fuel0 r h',
    denotes h' r (Nat.iter n (derivative_in kw) t) ∧
    ∀ fuel, fuel0 ≤ fuel →
      differentiate_times fuel n root kw h = (Ok r, h').
Proof.
  revert h root t. induction n as [|n IH]; intros h root t Hr.
  - exists 0, root, h. by split.
  - destruct (postvisitor_derivative_in h kw root t Hr)
      as (n1 & r1 & h1 & _ & Hd1 & E1).
    destruct (IH h1 r1 _ Hd1) as (n2 & r2 & h2 & Hd2 & E2).
    exists (n1 `max` n2), r2, h2. split.
    + by rewrite Nat.iter_succ_r.
    + intros fuel Hf. simpl.
      rewrite (bind_Ok _ _ _ _ _ (E1 fuel ltac:(lia))).
      apply E2. lia.
Qed.

Lemma differentiate_times_derivative_witness :
  let h := [symbol_object "x"; symbol_object "x"; operator_object OpMul 0 1] in
  denotes h 2 (Op OpMul (Sym "x") (Sym "x")) ∧
  ∃ fuel0 r h',
    denotes h' r
      (Nat.iter 2 (derivative_in (with_respect_to "x"))
         (Op OpMul (Sym "x") (Sym "x"))) ∧
    ∀ fuel, fuel0 ≤ fuel →
      differentiate_times fuel 2 2 (with_respect_to "x") h = (Ok r, h').
Proof.
  intros h.
  assert (denotes h 2 (Op OpMul (Sym "x") (Sym "x"))) as Hd
    by exact (tree_of_denotes 2 h 2 _ eq_refl).
  split; [exact Hd|].
  exact (differentiate_times_derivative 2 (with_respect_to "x") h 2 _ Hd).
Defined.

(** * Further properties of the display text *)

Lemma append_assoc (a b c : string) : (a +:+ b) +:+ c = a +:+ b +:+ c.
Proof.
  induction a as [|x a IH]; [reflexivity|].
  change (String x ((a +:+ b) +:+ c) = String x (a +:+ b +:+ c)).
  by f_equal.
Qed.

Lemma wrap_same_precedence p q t s :
  precedence p = precedence q → wrap p t s = wrap q t s.
Proof. intros E. destruct t; simpl; by rewrite ?E. Qed.

Lemma wrap_equal_precedence p q a b s :
  precedence p = precedence q → wrap p (Op q a b) s = s.
Proof. intros E. simpl. by rewrite E, Z.ltb_irrefl. Qed.

Lemma render_reassociates fs cs p q a b c :
  precedence p = precedence q →
  render fs cs (Op p (Op q a b) c) = render fs cs (Op q a (Op p b c)).
Proof.
  intros E.
  change (render fs cs (Op p (Op q a b) c))
    with (wrap p (Op q a b) (render fs cs (Op q a b))
            +:+ " " +:+ symbol p +:+ " " +:+ wrap p c (render fs cs c)).
  change (render fs cs (Op q a (Op p b c)))
    with (wrap q a (render fs cs a) +:+ " " +:+ symbol q +:+ " "
            +:+ wrap q (Op p b c) (render fs cs (Op p b c))).
  rewrite (wrap_equal_precedence p q) by done.
  rewrite (wrap_equal_precedence q p) by done.
  change (render fs cs (Op q a b))
    with (wrap q a (render fs cs a) +:+ " " +:+ symbol q +:+ " "
            +:+ wrap q b (render fs cs b)).
  change (render fs cs (Op p b c))
    with (wrap p b (render fs cs b) +:+ " " +:+ symbol p +:+ " "
            +:+ wrap p c (render fs cs c)).
  rewrite (wrap_same_precedence q p b) by done.
  by rewrite !append_assoc.
Qed.

(** X11: the display text does not tell how operators of equal precedence
    were nested: [(a q b) p c] and [a q (b p c)] have the same text whenever
    [p] and [q] have the same precedence, so that [(x - y) - z] and
    [x - (y - z)] both read ["x - y - z"]. *)
Theorem str_forgets_nesting_at_equal_precedence
    (fs : float → string) (cs : float → float → string)
    (h : heap) (l1 l2 : loc) (p q : binop) (a b c : tree) (fuel : nat) :
  precedence p = precedence q →
  denotes h l1 (Op p (Op q a b) c) →
  denotes h l2 (Op q a (Op p b c)) →
  height (Op p (Op q a b) c) < fuel →
  height (Op q a (Op p b c)) < fuel →
  ∃ s, str fs cs fuel h l1 = Ok s ∧ str fs cs fuel h l2 = Ok s.
Proof.
  intros E H1 H2 F1 F2. exists (render fs cs (Op p (Op q a b) c)).
  split; [by apply str_denotes|].
  rewrite (render_reassociates fs cs p q a b c E). by apply str_denotes.
Qed.

Lemma str_forgets_nesting_at_equal_precedence_witness :
  let h := [symbol_object "x"; symbol_object "y"; symbol_object "z";
            operator_object OpSub 0 1; operator_object OpSub 3 2;
            operator_object OpSub 1 2; operator_object OpSub 0 5] in
  denotes h 4 (Op OpSub (Op OpSub (Sym "x") (Sym "y")) (Sym "z")) ∧
  denotes h 6 (Op OpSub (Sym "x") (Op OpSub (Sym "y") (Sym "z"))) ∧
  str (λ _, "") (λ _ _, "") 3 h 4 = Ok "x - y - z" ∧
  str (λ _, "") (λ _ _, "") 3 h 6 = Ok "x - y - z" ∧
  ∃ s, str (λ _, "") (λ _ _, "") 3 h 4 = Ok s ∧
       str (λ _, "") (λ _ _, "") 3 h 6 = Ok s.
Proof.
  intros h.
  assert (denotes h 4 (Op OpSub (Op OpSub (Sym "x") (Sym "y")) (Sym "z")))
    as H1 by exact (tree_of_denotes 3 h 4 _ eq_refl).
  assert (denotes h 6 (Op OpSub (Sym "x") (Op OpSub (Sym "y") (Sym "z"))))
    as H2 by exact (tree_of_denotes 3 h 6 _ eq_refl).
  split; [exact H1|]. split; [exact H2|].
  split; [reflexivity|]. split; [reflexivity|].
  apply (str_forgets_nesting_at_equal_precedence
           (λ _, "") (λ _ _, "") h 4 6 OpSub OpSub
           (Sym "x") (Sym "y") (Sym "z") 3 eq_refl H1 H2);
    simpl; lia.
Defined.

Lemma under_Terminal_not_Operator c :
  under_Operator c = true → under_Terminal c = false.
Proof.
  induction c as [| | | | | | | | | |name base IH prec sym]; simpl;
    done.
Qed.

(** X12: where the display text fails.  For a node that is neither a
    terminal nor an operator (a bare [Expression]) [str] raises [TypeError];
    for an operator node that does not have exactly two operands it raises
    [ValueError]; and an operator node passes on the exception of its left
    operand, or else of its right operand. *)
Theorem str_failures
    (fs : float → string) (cs : float → float → string)
    (h : heap) (l : loc) (obj : object) (fuel : nat) :
  h !! l = Some obj →
  (under_Terminal (ob_class obj) = false →
   under_Operator (ob_class obj) = false →
   str fs cs (S fuel) h l
   = Raise (TypeError "__str__ returned non-string (type tuple)")) ∧
  (under_Operator (ob_class obj) = true →
   length (operands obj) ≠ 2 →
   ∃ msg, str fs cs (S fuel) h l = Raise (ValueError msg)) ∧
  (under_Operator (ob_class obj) = true →
   ∀ a b x,
     operands obj = [a; b] →
     str fs cs fuel h a = Raise x ∨
     ((∃ s, str fs cs fuel h a = Ok s) ∧ str fs cs fuel h b = Raise x) →
     str fs cs (S fuel) h l = Raise x).
Proof.
  intros E. split; [|split].
  - intros Ht Ho. simpl. by rewrite E, Ht, Ho.
  - intros Ho Hl. simpl. rewrite E, (under_Terminal_not_Operator _ Ho), Ho.
    destruct (operands obj) as [|a [|b [|c rest]]]; simpl in Hl;
      try done; eauto.
  - intros Ho a b x Eo Hx. simpl.
    rewrite E, (under_Terminal_not_Operator _ Ho), Ho, Eo.
    destruct Hx as [Ha|[[s Ha] Hb]]; rewrite Ha; simpl; [done|].
    by rewrite Hb.
Qed.

Lemma str_failures_witness :
  let h := [Object cExpression [] None; symbol_object "x";
            operator_object OpAdd 1 0; Object cMul [1] None] in
  str (λ _, "") (λ _ _, "") 1 h 0
  = Raise (TypeError "__str__ returned non-string (type tuple)") ∧
  (∃ msg, str (λ _, "") (λ _ _, "") 1 h 3 = Raise (ValueError msg)) ∧
  str (λ _, "") (λ _ _, "") 2 h 2
  = Raise (TypeError "__str__ returned non-string (type tuple)").
Proof.
  intros h.
  split; [|split].
  - exact (proj1 (str_failures (λ _, "") (λ _ _, "") h 0
                    (Object cExpression [] None) 0 eq_refl)
             eq_refl eq_refl).
  - refine (proj1 (proj2 (str_failures (λ _, "") (λ _ _, "") h 3
                            (Object cMul [1] None) 0 eq_refl))
              eq_refl _).
    simpl. lia.
  - refine (proj2 (proj2 (str_failures (λ _, "") (λ _ _, "") h 2
                            (operator_object OpAdd 1 0) 1 eq_refl))
              eq_refl 1 0 _ eq_refl _).
    right. split; [by exists "x"|reflexivity].
Defined.

(** * The debug text *)

Section ReprFacts.

Variable float_str : float → string.
Variable complex_str : float → float → string.
Variable str_repr : string → string.

Local Abbreviation repr := (repr float_str complex_str str_repr).
Local Abbreviation show := (show float_str complex_str str_repr).

Lemma repr_denotes h l t :
  denotes h l t →
  ∀ fuel, height t < fuel → repr fuel h l = Ok (show t).
Proof.
  induction 1 as [l v E|l name E|l op a b ea eb E Ha IHa Hb IHb];
    intros [|fuel] Hf; try lia; simpl; rewrite E; simpl; try done.
  rewrite binop_cls_not_Terminal. simpl in Hf.
  rewrite IHa, IHb by lia. unfold mbind, outcome_bind, tuple_repr.
  simpl String.concat. by rewrite !append_assoc.
Qed.

End ReprFacts.


